(** * Image-Enhancer: face-region enhancement pipeline (src/main.cpp)

    A shallow embedding of the pipeline of [main.cpp] and of the helper
    functions it defines ([unsharpMask], [pickLargest], [featherMask],
    [pasteWithFeather]), together with the properties the design document
    states about them.

    Conventions.
    - C++ [int] values are modelled as [Z]; the pipeline only manipulates
      coordinates, sizes and areas of rectangles that lie inside a decoded
      image, and [cv::imread] does not decode images of more than 2^30
      pixels, so none of these leaves the range of [int].
    - [double]/[float] values are modelled as exact rationals ([Qc]); the
      rounding of the floating-point unit is not part of the model.
    - A [cv::Mat] is a list of rows, each row a list of pixels. *)

From Stdlib Require Import ZArith QArith Qcanon Qround Lia Ascii String.
From stdpp Require Import base numbers list strings gmap.

Local Open Scope Z_scope.

(** ** Rectangles ([cv::Rect], [cv::Size]) *)

Module Geometry.

Record Rect : Type := mkRect { x : Z; y : Z; width : Z; height : Z }.

Record Size : Type := mkSize { sw : Z; sh : Z }.

#[global] Instance Rect_eq_dec : EqDecision Rect.
Proof. solve_decision. Defined.

(** [cv::Rect()] : the default-constructed rectangle, all fields zero. *)
Definition zeroRect : Rect := mkRect 0 0 0 0.

#[global] Instance Rect_inhabited : Inhabited Rect := populate zeroRect.

(** [Rect::area()] is [width * height]. *)
Definition area (r : Rect) : Z := width r * height r.

(** [Rect::size()]. *)
Definition size (r : Rect) : Size := mkSize (width r) (height r).

(** One iteration of the loop of [pickLargest]:
    [if (rects[i].area() > rects[best].area()) best = i;] *)
Definition pickLargest_step (rects : list Rect) (best i : nat) : nat :=
  if area (rects !!! i) >? area (rects !!! best) then i else best.

(** [pickLargest]: index loop [for (i = 1; i < rects.size(); ++i)]. *)
Definition pickLargest_index (rects : list Rect) : nat :=
  fold_left (pickLargest_step rects) (seq 1 (length rects - 1)) 0%nat.

Definition pickLargest (rects : list Rect) : Rect :=
  match rects with
  | [] => zeroRect
  | _ => rects !!! pickLargest_index rects
  end.

(** Loop invariant of [pickLargest]: after the indices [1 .. m-1] have been
    visited, [best] is the first index of maximal area among [0 .. m-1]. *)
Definition first_max (rects : list Rect) (m best : nat) : Prop :=
  (best < m)%nat
  /\ (forall j, (j < m)%nat -> area (rects !!! j) <= area (rects !!! best))
  /\ (forall j, (j < best)%nat -> area (rects !!! j) < area (rects !!! best)).

(** The region expansion of [main] ("Expand ROI slightly"):
<<
  int padX = faceRect.width / 8;
  int padY = faceRect.height / 6;
  cv::Rect roi(std::max(0, faceRect.x - padX), std::max(0, faceRect.y - padY),
    std::min(faceRect.width + 2 * padX, img.cols - std::max(0, faceRect.x - padX)),
    std::min(faceRect.height + 2 * padY, img.rows - std::max(0, faceRect.y - padY)));
>>
    C++ integer division truncates, hence [Z.quot]. *)
Definition padX (faceRect : Rect) : Z := width faceRect ÷ 8.
Definition padY (faceRect : Rect) : Z := height faceRect ÷ 6.

Definition expandROI (faceRect : Rect) (cols rows : Z) : Rect :=
  mkRect (Z.max 0 (x faceRect - padX faceRect))
         (Z.max 0 (y faceRect - padY faceRect))
         (Z.min (width faceRect + 2 * padX faceRect)
                (cols - Z.max 0 (x faceRect - padX faceRect)))
         (Z.min (height faceRect + 2 * padY faceRect)
                (rows - Z.max 0 (y faceRect - padY faceRect))).

(** The Rect invariant of the data model, relative to an image of
    [cols] x [rows] pixels. *)
Definition rect_inv (r : Rect) (cols rows : Z) : Prop :=
  0 <= x r /\ 0 <= y r /\ x r + width r <= cols /\ y r + height r <= rows
  /\ 0 < width r /\ 0 < height r.

(** [inner] lies inside [outer]. *)
Definition rect_contains (outer inner : Rect) : Prop :=
  x outer <= x inner /\ y outer <= y inner
  /\ x inner + width inner <= x outer + width outer
  /\ y inner + height inner <= y outer + height outer.

(** The expansion policy in the words of the design document: pad by
    [width / 8] and [height / 6]; shift the origin by the pad, not below
    zero; cap each extent by the space left after the origin shift. *)
Definition expand_spec (r : Rect) (cols rows : Z) : Rect :=
  let px := width r `div` 8 in
  let py := height r `div` 6 in
  let ox := if decide (x r - px < 0) then 0 else x r - px in
  let oy := if decide (y r - py < 0) then 0 else y r - py in
  let availx := cols - ox in
  let availy := rows - oy in
  let pw := width r + px + px in
  let ph := height r + py + py in
  mkRect ox oy (if decide (availx < pw) then availx else pw)
               (if decide (availy < ph) then availy else ph).

End Geometry.

Import Geometry.

(** ** Numbers: rationals standing for [double], and OpenCV's rounding *)

Module Num.

Definition ofZ (z : Z) : Qc := Q2Qc (inject_Z z).
Definition half : Qc := Q2Qc (1 # 2).

(** [cvRound]: round to the nearest integer, halfway cases to the even
    neighbour (the default rounding mode of the conversion instruction that
    OpenCV uses). *)
Definition cvRound (v : Qc) : Z :=
  let n := Qnum v in
  let d := Z.pos (Qden v) in
  let f := n `div` d in
  match (2 * (n `mod` d)) ?= d with
  | Lt => f
  | Gt => f + 1
  | Eq => if Z.even f then f else f + 1
  end.

(** [std::round]: round to the nearest integer, halfway cases away from
    zero. *)
Definition std_round (v : Qc) : Z :=
  let n := Qnum v in
  let d := Z.pos (Qden v) in
  if decide (0 <= n) then (2 * n + d) `div` (2 * d)
  else - ((2 * (- n) + d) `div` (2 * d)).

(** [cv::saturate_cast<uchar>(int)]. *)
Definition saturate_u8 (z : Z) : Z := Z.max 0 (Z.min 255 z).

(** [cv::saturate_cast<uchar>(float)]: round, then saturate. *)
Definition saturate_cast_u8 (v : Qc) : Z := saturate_u8 (cvRound v).

End Num.

Import Num.

(** ** Matrices ([cv::Mat]) *)

Module Matrix.

Abbreviation Mat A := (list (list A)) (only parsing).

(** Three-channel pixels ([cv::Vec3b], [cv::Vec3f]). *)
Definition Vec3 (A : Type) : Type := (A * A * A)%type.

Definition vec3_map {A B} (f : A -> B) (p : Vec3 A) : Vec3 B :=
  let '(a, b, c) := p in (f a, f b, f c).

Definition vec3_zip {A B C} (f : A -> B -> C) (p : Vec3 A) (q : Vec3 B) : Vec3 C :=
  let '(a, b, c) := p in let '(a', b', c') := q in (f a a', f b b', f c c').

Definition rows {A} (m : Mat A) : Z := Z.of_nat (length m).

Definition cols {A} (m : Mat A) : Z :=
  match m with
  | [] => 0
  | r :: _ => Z.of_nat (length r)
  end.

(** [Mat::empty()]. *)
Definition empty {A} (m : Mat A) : bool := (rows m =? 0) || (cols m =? 0).

(** The pixel at row [r], column [c], if any. *)
Definition px {A} (m : Mat A) (r c : nat) : option A := m !! r ≫= (.!! c).

Definition mat_map {A B} (f : A -> B) (m : Mat A) : Mat B := fmap (M:=list) (fmap (M:=list) f) m.

Definition mat_zip_with {A B C} (f : A -> B -> C) (m1 : Mat A) (m2 : Mat B) : Mat C :=
  zip_with (zip_with f) m1 m2.

(** [Mat(size, type, Scalar(v))]: a matrix filled with one value. *)
Definition mat_fill {A} (h w : nat) (v : A) : Mat A := replicate h (replicate w v).

(** A matrix given by its pixels. *)
Definition mat_tab {A} (h w : nat) (f : nat -> nat -> A) : Mat A :=
  (fun r => f r <$> seq 0 w) <$> seq 0 h.

(** [m] has [h] rows of [w] pixels each. *)
Definition has_shape {A} (h w : nat) (m : Mat A) : Prop :=
  length m = h /\ Forall (fun row => length row = w) m.

(** All channel samples are 8-bit values. *)
Definition is_u8 (z : Z) : Prop := 0 <= z <= 255.
Definition vec3_u8 (p : Vec3 Z) : Prop :=
  let '(a, b, c) := p in is_u8 a /\ is_u8 b /\ is_u8 c.
Definition mat_u8 (m : Mat (Vec3 Z)) : Prop := Forall (Forall vec3_u8) m.

End Matrix.

Import Matrix.

(** ** The OpenCV operations the program calls

    Operations whose pixel arithmetic is not the subject of any property
    are kept abstract: a backend supplies them. *)

Record CvBackend : Type := {
  (** a loaded [cv::CascadeClassifier], a loaded super-resolution network *)
  Cascade : Type;
  Net : Type;
  (** [cv::imread(path, IMREAD_COLOR)]; the empty matrix on failure *)
  imread : string -> Mat (Vec3 Z);
  (** [cv::imwrite(path, img)] reports success *)
  imwrite : string -> Mat (Vec3 Z) -> bool;
  (** [CascadeClassifier::load] *)
  cascade_load : string -> option Cascade;
  cvtColor_BGR2GRAY : Mat (Vec3 Z) -> Mat Z;
  equalizeHist : Mat Z -> Mat Z;
  (** [detectMultiScale(image, objects, scaleFactor, minNeighbors, flags, minSize)] *)
  detectMultiScale : Cascade -> Mat Z -> Qc -> Z -> Size -> list Rect;
  (** [cv::GaussianBlur(src, dst, ksize, sigmaX)] *)
  GaussianBlur : Mat (Vec3 Z) -> Size -> Qc -> Mat (Vec3 Z);
  cvtColor_BGR2YCrCb : Mat (Vec3 Z) -> Mat (Vec3 Z);
  cvtColor_YCrCb2BGR : Mat (Vec3 Z) -> Mat (Vec3 Z);
  (** [cv::createCLAHE(clipLimit, tileGridSize)->apply] *)
  clahe_apply : Qc -> Size -> Mat Z -> Mat Z;
  (** [cv::fastNlMeansDenoisingColored(src, dst, h, hColor, template, search)] *)
  fastNlMeansDenoisingColored : Mat (Vec3 Z) -> Qc -> Qc -> Z -> Z -> Mat (Vec3 Z);
  (** the value [INTER_CUBIC] resampling gives the pixel (row, column) of a
      destination of the given size *)
  inter_cubic : Mat (Vec3 Z) -> Size -> nat -> nat -> Vec3 Z;
  (** [cv::getGaussianKernel(ksize, sigma, CV_32F)] *)
  getGaussianKernel : Z -> Qc -> list Qc;
  (** [DnnSuperResImpl::readModel]; [inl what] is a thrown exception *)
  sr_readModel : string -> string + Net;
  (** [DnnSuperResImpl::upsample] after [setModel(algo, scale)] *)
  sr_upsample : Net -> string -> Z -> Mat (Vec3 Z) -> string + Mat (Vec3 Z)
}.

(** ** Tone enhancement: [unsharpMask] *)

Section Tone.

Context (cv : CvBackend).

(** [cv::addWeighted(src1, alpha, src2, beta, gamma, dst)] on 8-bit
    matrices: [dst = saturate_cast<uchar>(src1*alpha + src2*beta + gamma)]. *)
Definition addWeighted_channel (alpha beta gamma : Qc) (a b : Z) : Z :=
  saturate_cast_u8 (ofZ a * alpha + ofZ b * beta + gamma)%Qc.

Definition addWeighted (src1 : Mat (Vec3 Z)) (alpha : Qc) (src2 : Mat (Vec3 Z))
    (beta gamma : Qc) : Mat (Vec3 Z) :=
  mat_zip_with (vec3_zip (addWeighted_channel alpha beta gamma)) src1 src2.

(** The kernel size [k] chosen by [unsharpMask]:
    [if (amount < 0.75) k = 3; else if (amount < 1.5) k = 5;
     else if (amount < 2.5) k = 7; else k = 9;] *)
Definition unsharp_ksize (amount : Qc) : Z :=
  if decide (amount < Q2Qc (3 # 4))%Qc then 3
  else if decide (amount < Q2Qc (3 # 2))%Qc then 5
  else if decide (amount < Q2Qc (5 # 2))%Qc then 7
  else 9.

Definition unsharpMask (srcBgr : Mat (Vec3 Z)) (amount : Qc) : Mat (Vec3 Z) :=
  if decide (amount <= 0)%Qc then srcBgr (* srcBgr.clone() *)
  else
    let k := unsharp_ksize amount in
    let blurred := GaussianBlur cv srcBgr (mkSize k k) 0%Qc in
    addWeighted srcBgr (1 + amount)%Qc blurred (- amount)%Qc 0%Qc.

(** [enhanceLumaCLAHE]: CLAHE (clip limit 2.0, 8x8 tiles) on the luma
    channel of the YCrCb image; [split] and [merge] are written out. *)
Definition enhanceLumaCLAHE (srcBgr : Mat (Vec3 Z)) : Mat (Vec3 Z) :=
  let ycrcb := cvtColor_BGR2YCrCb cv srcBgr in
  let ch0 := mat_map (fun p : Vec3 Z => p.1.1) ycrcb in
  let ch0' := clahe_apply cv (Q2Qc 2) (mkSize 8 8) ch0 in
  let merged :=
    mat_zip_with (fun (l : Z) (p : Vec3 Z) => (l, p.1.2, p.2)) ch0' ycrcb in
  cvtColor_YCrCb2BGR cv merged.

End Tone.

(** The unsharp-mask stage in the words of the design document. *)
Module UnsharpSpec.




End UnsharpSpec.

(** ** Program state: matrix buffers, the two output streams, written files *)

Module State.

(** A [cv::Mat] header: a reference-counted pixel buffer and the window of
    the buffer the header shows.  [Mat::operator()(roi)] yields a header on
    the same buffer; [clone()] yields a header on a new buffer. *)
Record MatHdr : Type := mkHdr { buf : nat; win : Rect }.

Record World : Type := mkWorld {
  heap : gmap nat (Mat (Vec3 Z));
  cerr : list string;
  cout : list string;
  (** every call of [cv::imwrite]: path, image handed over, success *)
  imwrite_log : list (string * Mat (Vec3 Z) * bool)
}.

(** Computations on the world; [None] is an exception that nothing catches
    (the process is terminated). *)
Definition M (A : Type) : Type := World -> option (A * World).

Definition ret {A} (a : A) : M A := fun w => Some (a, w).

Definition bind {A B} (m : M A) (k : A -> M B) : M B :=
  fun w => match m w with
           | Some (a, w') => k a w'
           | None => None
           end.

(** a [CV_Assert] that failed *)
Definition throw {A} : M A := fun _ => None.

Definition lift {A} (o : option A) : M A :=
  fun w => match o with Some a => Some (a, w) | None => None end.

Definition cerr_put (line : string) : M unit :=
  fun w => Some (tt, mkWorld (heap w) (cerr w ++ [line]) (cout w) (imwrite_log w)).

Definition cout_put (line : string) : M unit :=
  fun w => Some (tt, mkWorld (heap w) (cerr w) (cout w ++ [line]) (imwrite_log w)).

End State.

Import State.

Declare Scope cv_scope.
Delimit Scope cv_scope with cv.
Notation "x <- m ;; k" := (bind m (fun x => k))
  (at level 100, m at next level, right associativity) : cv_scope.
Notation "m ;;; k" := (bind m (fun _ => k))
  (at level 100, right associativity) : cv_scope.

Module Buffers.

(** The pixels of [m] inside the window [r]. *)
Definition crop {A} (m : Mat A) (r : Rect) : Mat A :=
  (fun row : list A => take (Z.to_nat (width r)) (drop (Z.to_nat (x r)) row))
    <$> take (Z.to_nat (height r)) (drop (Z.to_nat (y r)) m).

(** [m] with the window [r] overwritten by [blk]. *)
Definition blit {A} (m : Mat A) (r : Rect) (blk : Mat A) : Mat A :=
  imap (fun i row =>
          if decide (y r <= Z.of_nat i < y r + height r) then
            imap (fun j p =>
                    if decide (x r <= Z.of_nat j < x r + width r) then
                      default p (px blk (i - Z.to_nat (y r)) (j - Z.to_nat (x r)))
                    else p) row
          else row) m.

(** The window [r] lies inside a matrix of [h] rows and [w] columns. *)
Definition window_in (r : Rect) (h w : nat) : Prop :=
  0 <= x r /\ 0 <= y r /\ 0 <= width r /\ 0 <= height r
  /\ x r + width r <= Z.of_nat w /\ y r + height r <= Z.of_nat h.

(** The window that shows all of [m]. *)
Definition whole {A} (m : Mat A) : Rect := mkRect 0 0 (cols m) (rows m).

(** A header on a new buffer holding [content]. *)
Definition hdr_alloc (content : Mat (Vec3 Z)) : M MatHdr :=
  fun w =>
    let b := fresh (dom (heap w)) in
    Some (mkHdr b (whole content),
          mkWorld (<[b := content]> (heap w)) (cerr w) (cout w) (imwrite_log w)).

(** The pixels a header shows. *)
Definition hdr_read (h : MatHdr) : M (Mat (Vec3 Z)) :=
  fun w => match heap w !! buf h with
           | Some m => Some (crop m (win h), w)
           | None => None
           end.

(** [Mat::operator()(const Rect& roi)]: asserts that [roi] lies inside the
    matrix, then shares the buffer. *)
Definition hdr_roi (h : MatHdr) (roi : Rect) : M MatHdr :=
  if decide (0 <= x roi /\ 0 <= width roi /\ x roi + width roi <= width (win h)
             /\ 0 <= y roi /\ 0 <= height roi /\ y roi + height roi <= height (win h))
  then ret (mkHdr (buf h)
              (mkRect (x (win h) + x roi) (y (win h) + y roi) (width roi) (height roi)))
  else throw.

(** [Mat::clone()]. *)
Definition hdr_clone (h : MatHdr) : M MatHdr :=
  (content <- hdr_read h ;; hdr_alloc content)%cv.

(** Writing a computed matrix to an output header ([OutputArray::create]
    followed by the element-wise store): a header that already has the size
    of the result keeps its buffer and is overwritten in place; otherwise
    the header is given a new buffer. *)
Definition hdr_assign (dst : MatHdr) (content : Mat (Vec3 Z)) : M MatHdr :=
  if decide (cols content = width (win dst) /\ rows content = height (win dst)) then
    fun w => match heap w !! buf dst with
             | Some m =>
                 Some (dst, mkWorld (<[buf dst := blit m (win dst) content]> (heap w))
                              (cerr w) (cout w) (imwrite_log w))
             | None => None
             end
  else hdr_alloc content.

End Buffers.

Import Buffers.

(** ** Floating-point matrix operations used by the compositor *)

Module Filter.

#[global] Instance Qc_inhabited : Inhabited Qc := populate 0%Qc.

Definition Qc_min (a b : Qc) : Qc := if decide (a <= b)%Qc then a else b.
Definition Qc_max (a b : Qc) : Qc := if decide (a <= b)%Qc then b else a.

Definition DBL_EPSILON : Qc := Q2Qc (1 # 4503599627370496).

(** [cv::borderInterpolate(p, len, BORDER_REFLECT_101)], the border mode
    that filters use unless told otherwise: the row [abcdefgh] continues
    as [gfedcb|abcdefgh|gfedcba], with period [2 * (len - 1)]. *)
Definition borderInterpolate (p len : Z) : Z :=
  if decide (0 <= p < len) then p
  else if decide (len = 1) then 0
  else
    let period := 2 * (len - 1) in
    let q := p `mod` period in
    if decide (q < len) then q else period - q.

(** One output sample of a 1-D correlation: the kernel taps weighted with
    the samples [get] returns at the border-interpolated positions. *)
Definition tap_sum (kernel : list Qc) (anchor len : Z) (get : nat -> Qc) (i : nat) : Qc :=
  foldr Qcplus 0%Qc
    (imap (fun k w =>
             (w * get (Z.to_nat (borderInterpolate (Z.of_nat i + Z.of_nat k - anchor) len)))%Qc)
          kernel).

(** [cv::sepFilter2D(src, dst, -1, kernelX, kernelY)]: the rows are
    filtered with [kernelX], then the columns with [kernelY]; the anchor is
    the kernel centre and the border mode the default one. *)
Definition filter_rows (kernelX : list Qc) (src : Mat Qc) : Mat Qc :=
  (fun row : list Qc =>
     imap (fun c _ =>
             tap_sum kernelX (Z.of_nat (length kernelX) `div` 2)
               (Z.of_nat (length row)) (fun j => row !!! j) c) row) <$> src.

Definition filter_cols (kernelY : list Qc) (src : Mat Qc) : Mat Qc :=
  imap (fun r row =>
          imap (fun c _ =>
                  tap_sum kernelY (Z.of_nat (length kernelY) `div` 2)
                    (Z.of_nat (length src)) (fun j => (src !!! j) !!! c) r) row) src.

Definition sepFilter2D (src : Mat Qc) (kernelX kernelY : list Qc) : Mat Qc :=
  filter_cols kernelY (filter_rows kernelX src).

(** [cv::minMaxIdx]. *)
Definition minMaxIdx (m : Mat Qc) : Qc * Qc :=
  match concat m with
  | [] => (0%Qc, 0%Qc)
  | v :: vs => (foldl Qc_min v vs, foldl Qc_max v vs)
  end.

(** [cv::normalize(src, dst, a, b, NORM_MINMAX)]:
<<
  scale = (dmax - dmin)*(smax - smin > DBL_EPSILON ? 1./(smax - smin) : 0);
  shift = dmin - smin*scale;
  src.convertTo(dst, rtype, scale, shift);
>> *)
Definition normalize_minmax (src : Mat Qc) (a b : Qc) : Mat Qc :=
  let '(smin, smax) := minMaxIdx src in
  let dmin := Qc_min a b in
  let dmax := Qc_max a b in
  let scale :=
    ((dmax - dmin) *
     (if decide (DBL_EPSILON < smax - smin) then / (smax - smin) else 0))%Qc in
  let shift := (dmin - smin * scale)%Qc in
  mat_map (fun v => (v * scale + shift)%Qc) src.

(** [src.convertTo(dst, CV_32F, alpha)] on an 8-bit matrix. *)
Definition convertTo_32F (src : Mat (Vec3 Z)) (alpha : Qc) : Mat (Vec3 Qc) :=
  mat_map (vec3_map (fun v => (ofZ v * alpha)%Qc)) src.

(** [src.convertTo(dst, CV_8U, alpha)] on a float matrix. *)
Definition convertTo_8U (src : Mat (Vec3 Qc)) (alpha : Qc) : Mat (Vec3 Z) :=
  mat_map (vec3_map (fun v => saturate_cast_u8 (v * alpha)%Qc)) src.

(** [a.mul(b)], [a + b] and [s - a] on float matrices. *)
Definition mat_mul (a b : Mat (Vec3 Qc)) : Mat (Vec3 Qc) :=
  mat_zip_with (vec3_zip Qcmult) a b.
Definition mat_add (a b : Mat (Vec3 Qc)) : Mat (Vec3 Qc) :=
  mat_zip_with (vec3_zip Qcplus) a b.
Definition scalar_sub (s : Qc) (a : Mat (Vec3 Qc)) : Mat (Vec3 Qc) :=
  mat_map (vec3_map (fun v => (s - v)%Qc)) a.

End Filter.

Import Filter.

(** ** The command line ([struct Args]) *)

Record Args : Type := mkArgs {
  inputPath : string;
  outputPath : string;
  cascadePath : string;
  srModelPath : string;
  srScale : Qc;
  sharpenAmount : Qc
}.

(** ** The pipeline *)

Section Pipeline.

Context (cv : CvBackend).

(** [cv::resize(src, dst, dsize, 0, 0, INTER_CUBIC)] with a given [dsize].
    The source and the destination size must not be empty. *)
Definition resize_to (src : Mat (Vec3 Z)) (dsize : Size) : option (Mat (Vec3 Z)) :=
  if empty src then None
  else if decide (sw dsize <= 0 \/ sh dsize <= 0) then None
  else Some (mat_tab (Z.to_nat (sh dsize)) (Z.to_nat (sw dsize)) (inter_cubic cv src dsize)).

(** [cv::resize(src, dst, cv::Size(), fx, fy, INTER_CUBIC)]: the
    destination size is
    [Size(saturate_cast<int>(src.cols*fx), saturate_cast<int>(src.rows*fy))]. *)
Definition resize_by (src : Mat (Vec3 Z)) (fx fy : Qc) : option (Mat (Vec3 Z)) :=
  if empty src then None
  else if decide (fx <= 0 \/ fy <= 0)%Qc then None
  else resize_to src (mkSize (cvRound (ofZ (cols src) * fx)) (cvRound (ofZ (rows src) * fy))).

(** [featherMask]. *)
Definition featherMask (size : Size) (radius : Z) : Mat Qc :=
  let mask := mat_fill (Z.to_nat (sh size)) (Z.to_nat (sw size)) 1%Qc in
  let r := Z.max 1 radius in
  let kernel := getGaussianKernel cv (r * 2 + 1) (ofZ r) in
  let gauss := sepFilter2D mask kernel kernel in
  normalize_minmax gauss 0%Qc 1%Qc.

(** The blend of [pasteWithFeather]:
    [srcF.mul(mF) + dstF.mul(1.0 - mF)], converted back to 8 bits. *)
Definition feather_blend (resizedFace dst : Mat (Vec3 Z)) (mask : Mat Qc) : Mat (Vec3 Z) :=
  let mask3 := mat_map (fun m : Qc => (m, m, m)) mask in
  let dstF := convertTo_32F dst (Q2Qc (1 # 255)) in
  let srcF := convertTo_32F resizedFace (Q2Qc (1 # 255)) in
  let mF := mask3 in
  let blended := mat_add (mat_mul srcF mF) (mat_mul dstF (scalar_sub 1%Qc mF)) in
  convertTo_8U blended (Q2Qc 255).

(** [pasteWithFeather(faceBgr, roi, canvasBgr)]. *)
Definition pasteWithFeather (faceBgr : Mat (Vec3 Z)) (roi : Rect) (canvasBgr : MatHdr) : M unit :=
  (dstROI <- hdr_roi canvasBgr roi ;;
   resizedFace <- lift (resize_to faceBgr (size roi)) ;;
   let mask := featherMask (size roi) (Z.max 3 (width roi ÷ 20)) in
   dst <- hdr_read dstROI ;;
   _ <- hdr_assign dstROI (feather_blend resizedFace dst mask) ;;
   ret tt)%cv.

(** [std::tolower] on every character, then the search for the family
    name in the model file name. *)
Definition tolower (c : ascii) : ascii :=
  let n := nat_of_ascii c in
  if decide (65 <= n <= 90)%nat then ascii_of_nat (n + 32) else c.

Fixpoint tolower_string (s : string) : string :=
  match s with
  | EmptyString => EmptyString
  | String c s' => String (tolower c) (tolower_string s')
  end.

Definition contains (pat s : string) : bool :=
  match String.index 0 pat s with
  | Some _ => true
  | None => false
  end.

Definition sr_algo (srModelPath : string) : string :=
  let lower := tolower_string srModelPath in
  if contains "edsr" lower then "edsr"
  else if contains "lapsrn" lower then "lapsrn" else "edsr".

(** The body of the [try] block: [readModel], [setModel], [upsample].
    [inl what] is the exception that leaves the block. *)
Definition sr_try (args : Args) (face : Mat (Vec3 Z)) : string + Mat (Vec3 Z) :=
  let algo := sr_algo (srModelPath args) in
  match sr_readModel cv (srModelPath args) with
  | inl what => inl what
  | inr net => sr_upsample cv net algo (std_round (srScale args)) face
  end.

(** The guard of the [try] block:
    [!args.srModelPath.empty() && args.srScale >= 1.5]. *)
Definition sr_requested (args : Args) : bool :=
  negb (String.eqb (srModelPath args) "")
  && bool_decide (Q2Qc (3 # 2) <= srScale args)%Qc.

(** The optional super-resolution stage of [main], as compiled when
    [NO_SUPERRES] is not defined (the default build). *)
Definition superResolution (args : Args) (face : Mat (Vec3 Z)) : M (Mat (Vec3 Z)) :=
  if sr_requested args
  then
    match sr_try args face with
    | inr up => ret up
    | inl what =>
        (cerr_put ("Super-resolution failed: " +:+ what +:+ ". Using bicubic.") ;;;
         lift (resize_by face (srScale args) (srScale args)))%cv
    end
  else if decide (Q2Qc (101 # 100) < srScale args)%Qc then
    lift (resize_by face (srScale args) (srScale args))
  else ret face.

Definition do_imwrite (path : string) (h : MatHdr) : M bool :=
  (content <- hdr_read h ;;
   let ok := imwrite cv path content in
   fun w => Some (ok, mkWorld (heap w) (cerr w) (cout w)
                        (imwrite_log w ++ [(path, content, ok)])))%cv.

(** [main], after the command line has been parsed into [args]. *)
Definition main (args : Args) : M Z :=
  (img <- hdr_alloc (imread cv (inputPath args)) ;;
   src <- hdr_read img ;;
   if empty src then
     cerr_put ("Failed to read input image: " +:+ inputPath args) ;;; ret 2
   else
     match cascade_load cv (cascadePath args) with
     | None => cerr_put ("Failed to load cascade: " +:+ cascadePath args) ;;; ret 3
     | Some faceCascade =>
         let gray := cvtColor_BGR2GRAY cv src in
         let gray := equalizeHist cv gray in
         let faces :=
           detectMultiScale cv faceCascade gray (Q2Qc (12 # 10)) 5 (mkSize 40 40) in
         let faceRect := pickLargest faces in
         if area faceRect =? 0 then
           cerr_put "No face detected. Saving original to output." ;;;
           _ <- do_imwrite (outputPath args) img ;;
           ret 0
         else
           let roi := expandROI faceRect (cols src) (rows src) in
           faceView <- hdr_roi img roi ;;
           face <- hdr_read faceView ;;
           face <- superResolution args face ;;
           let face := unsharpMask cv face (sharpenAmount args) in
           let face := enhanceLumaCLAHE cv face in
           let denoised := fastNlMeansDenoisingColored cv face (Q2Qc 3) (Q2Qc 3) 7 21 in
           let face := denoised in
           faceBack <- lift (resize_to face (size roi)) ;;
           result <- hdr_clone img ;;
           pasteWithFeather faceBack roi result ;;;
           ok <- do_imwrite (outputPath args) result ;;
           if negb ok then
             cerr_put ("Failed to write output: " +:+ outputPath args) ;;; ret 4
           else
             cout_put ("Saved: " +:+ outputPath args) ;;; ret 0
     end)%cv.

End Pipeline.

(** ** What the pipeline expects of the OpenCV operations

    The filters return a matrix of the size of their input; a
    super-resolution network that succeeds returns its input enlarged by the
    integer factor it was set to. *)

Record CvContract (cv : CvBackend) : Prop := {
  GaussianBlur_shape : forall h w m k s,
    has_shape h w m -> has_shape h w (GaussianBlur cv m k s);
  BGR2YCrCb_shape : forall h w m,
    has_shape h w m -> has_shape h w (cvtColor_BGR2YCrCb cv m);
  YCrCb2BGR_shape : forall h w m,
    has_shape h w m -> has_shape h w (cvtColor_YCrCb2BGR cv m);
  clahe_shape : forall h w m c t,
    has_shape h w m -> has_shape h w (clahe_apply cv c t m);
  denoise_shape : forall h w m a b t s,
    has_shape h w m -> has_shape h w (fastNlMeansDenoisingColored cv m a b t s);
  upsample_shape : forall h w net algo k m up,
    has_shape h w m -> sr_upsample cv net algo k m = inr up ->
    has_shape (Z.to_nat k * h) (Z.to_nat k * w) up
}.

Section Outcomes.

Context (cv : CvBackend).

(** The scale factor the super-resolution stage ends up applying: the
    integer scale of the model when the model ran, the requested scale when
    bicubic interpolation ran, one when the region is passed through. *)
Definition effective_scale (args : Args) (face : Mat (Vec3 Z)) : Qc :=
  if sr_requested args then
    match sr_try cv args face with
    | inr _ => ofZ (std_round (srScale args))
    | inl _ => srScale args
    end
  else if decide (Q2Qc (101 # 100) < srScale args)%Qc then srScale args
  else 1%Qc.

(** The lines the super-resolution stage writes to [cerr]. *)
Definition sr_diagnostics (args : Args) (face : Mat (Vec3 Z)) : list string :=
  if sr_requested args then
    match sr_try cv args face with
    | inr _ => []
    | inl what => ["Super-resolution failed: " +:+ what +:+ ". Using bicubic."]
    end
  else [].

(** The same command line without [--sr_model]. *)
Definition without_model (args : Args) : Args :=
  mkArgs (inputPath args) (outputPath args) (cascadePath args) ""
         (srScale args) (sharpenAmount args).

Definition add_cerr (lines : list string) (w : World) : World :=
  mkWorld (heap w) (cerr w ++ lines) (cout w) (imwrite_log w).

(** Buffers that satisfy [keep] hold in [w'] what they held in [w]. *)
Definition preserves (keep : nat -> Prop) (w w' : World) : Prop :=
  forall b m, keep b -> heap w !! b = Some m -> heap w' !! b = Some m.

(** The candidate rectangles [main] obtains for the decoded image. *)
Definition detected_faces (faceCascade : Cascade cv) (img : Mat (Vec3 Z)) : list Rect :=
  detectMultiScale cv faceCascade (equalizeHist cv (cvtColor_BGR2GRAY cv img))
    (Q2Qc (12 # 10)) 5 (mkSize 40 40).

(** The state in which [main] leaves the program when a face was found and
    the composite has written [out] into the working copy: the decoded
    image [img] in the first new buffer, [out] in the second, and the
    messages of the super-resolution stage and of the final [imwrite]. *)
Definition final_world (args : Args) (img out : Mat (Vec3 Z)) (roi : Rect) (w : World) : World :=
  let b0 := fresh (dom (heap w)) in
  let heap1 := <[b0 := img]> (heap w) in
  let bR := fresh (dom heap1) in
  let ok := imwrite cv (outputPath args) out in
  mkWorld (<[bR := out]> heap1)
    (cerr w ++ sr_diagnostics args (crop img roi)
       ++ (if ok then [] else ["Failed to write output: " +:+ outputPath args]))
    (cout w ++ (if ok then ["Saved: " +:+ outputPath args] else []))
    (imwrite_log w ++ [(outputPath args, out, ok)]).

(** A computation that leaves every pixel buffer as it is. *)
Definition heap_stable {A} (m : M A) : Prop :=
  forall w a w', m w = Some (a, w') -> heap w' = heap w.

(** The window of the buffer that the header [h(roi)] shows. *)
Definition roi_window (h : MatHdr) (roi : Rect) : Rect :=
  mkRect (x (win h) + x roi) (y (win h) + y roi) (width roi) (height roi).

(** Row [i], column [j] of a buffer lies inside the window [r]. *)
Definition inside (r : Rect) (i j : nat) : Prop :=
  y r <= Z.of_nat i < y r + height r /\ x r <= Z.of_nat j < x r + width r.

End Outcomes.

(** ** A small backend on which the pipeline can be run

    Nearest-neighbour resampling, identity filters except for the last
    enhancement stage (which inverts every sample, so that the enhanced
    region visibly differs from the source), a box kernel, a detector that
    reports a fixed list of rectangles and a super-resolution model that
    replicates pixels (or fails to load). *)

Module Demo.

Definition gradient (h w : nat) : Mat (Vec3 Z) :=
  mat_tab h w (fun r c =>
    (Z.of_nat r `mod` 256, Z.of_nat c `mod` 256, (Z.of_nat r + Z.of_nat c) `mod` 256)).

Definition nearest (src : Mat (Vec3 Z)) (dsize : Size) (r c : nat) : Vec3 Z :=
  default (0, 0, 0)
    (px src (Z.to_nat (Z.of_nat r * rows src `div` sh dsize))
            (Z.to_nat (Z.of_nat c * cols src `div` sw dsize))).

Definition replicate_px (k : Z) (m : Mat (Vec3 Z)) : Mat (Vec3 Z) :=
  mat_tab (Z.to_nat (k * rows m)) (Z.to_nat (k * cols m))
    (fun r c => default (0, 0, 0)
       (px m (Z.to_nat (Z.of_nat r `div` k)) (Z.to_nat (Z.of_nat c `div` k)))).

Definition box_kernel (ksize : Z) : list Qc :=
  replicate (Z.to_nat ksize) (Q2Qc (1 # Z.to_pos ksize)).

Definition backend (img : Mat (Vec3 Z)) (faces : list Rect) (model_ok : bool) : CvBackend :=
  {| Cascade := unit;
     Net := unit;
     imread := fun _ => img;
     imwrite := fun _ _ => true;
     cascade_load := fun _ => Some tt;
     cvtColor_BGR2GRAY := mat_map (fun p : Vec3 Z => p.1.1);
     equalizeHist := fun m => m;
     detectMultiScale := fun _ _ _ _ _ => faces;
     GaussianBlur := fun m _ _ => m;
     cvtColor_BGR2YCrCb := fun m => m;
     cvtColor_YCrCb2BGR := fun m => m;
     clahe_apply := fun _ _ m => m;
     fastNlMeansDenoisingColored :=
       fun m _ _ _ _ => mat_map (vec3_map (fun v => 255 - v)) m;
     inter_cubic := nearest;
     getGaussianKernel := fun ksize _ => box_kernel ksize;
     sr_readModel := fun _ => if model_ok then inr tt else inl "Can't open model file";
     sr_upsample := fun _ _ k m => inr (replicate_px k m) |}.

Definition args0 : Args :=
  mkArgs "in.png" "enhanced.png" "haarcascade_frontalface_default.xml" ""
         (Q2Qc 1) (Q2Qc 1).

Definition world0 : World := mkWorld ∅ [] [] [].

End Demo.

(** ** The command line: [printUsage], [parseArgs] and the entry point *)

Module Cli.

(** [Args args;] : the member initialisers of [struct Args]. *)
Definition default_args : Args :=
  mkArgs "" "enhanced.png" "haarcascade_frontalface_default.xml" "" (Q2Qc 2) (Q2Qc 1).

Definition set_inputPath (v : string) (a : Args) : Args :=
  mkArgs v (outputPath a) (cascadePath a) (srModelPath a) (srScale a) (sharpenAmount a).
Definition set_outputPath (v : string) (a : Args) : Args :=
  mkArgs (inputPath a) v (cascadePath a) (srModelPath a) (srScale a) (sharpenAmount a).
Definition set_cascadePath (v : string) (a : Args) : Args :=
  mkArgs (inputPath a) (outputPath a) v (srModelPath a) (srScale a) (sharpenAmount a).
Definition set_srModelPath (v : string) (a : Args) : Args :=
  mkArgs (inputPath a) (outputPath a) (cascadePath a) v (srScale a) (sharpenAmount a).
Definition set_srScale (q : Qc) (a : Args) : Args :=
  mkArgs (inputPath a) (outputPath a) (cascadePath a) (srModelPath a) q (sharpenAmount a).
Definition set_sharpenAmount (q : Qc) (a : Args) : Args :=
  mkArgs (inputPath a) (outputPath a) (cascadePath a) (srModelPath a) (srScale a) q.

(** [printUsage], default build. *)
Definition printUsage : M unit :=
  (cout_put "Usage: image_enhancer --input <path> [--output out.png] [--cascade haar.xml]" ;;;
   cout_put "       [--sr_model model.pb] [--sr_scale 2|3|4]" ;;;
   cout_put "       [--sharpen 0..3]")%cv.

Section Parse.

(** [std::stod]; [None] is the exception it throws when the text does not
    start with a number. *)
Context (stod : string -> option Qc).

(** The loop of [parseArgs] over [argv[i..argc)].  The result is the
    record as the loop leaves it and whether the loop was left through the
    [--help] branch; [None] is an exception out of [std::stod].  A key that
    takes a value is recognised only when a further argument follows
    ([i + 1 < argc]); the value is skipped by [++i]. *)
Fixpoint parse_loop (toks : list string) (args : Args) : option (Args * bool) :=
  match toks with
  | [] => Some (args, false)
  | key :: rest =>
      match rest with
      | v :: rest' =>
          if String.eqb key "--input" then parse_loop rest' (set_inputPath v args)
          else if String.eqb key "--output" then parse_loop rest' (set_outputPath v args)
          else if String.eqb key "--cascade" then parse_loop rest' (set_cascadePath v args)
          else if String.eqb key "--sr_model" then parse_loop rest' (set_srModelPath v args)
          else if String.eqb key "--sr_scale" then
            match stod v with
            | Some q => parse_loop rest' (set_srScale q args)
            | None => None
            end
          else if String.eqb key "--sharpen" then
            match stod v with
            | Some q => parse_loop rest' (set_sharpenAmount q args)
            | None => None
            end
          else if String.eqb key "--help" || String.eqb key "-h" then Some (args, true)
          else parse_loop rest args
      | [] =>
          if String.eqb key "--help" || String.eqb key "-h" then Some (args, true)
          else Some (args, false)
      end
  end.

(** [parseArgs(argc, argv, args)]: [argv] with [argc = length argv]; the
    result is the returned flag and the record as the function leaves it. *)
Definition parseArgs (argv : list string) (args : Args) : M (bool * Args) :=
  if decide (length argv < 3)%nat then
    (printUsage ;;; ret (false, args))%cv
  else
    match parse_loop (drop 1 argv) args with
    | None => throw
    | Some (args', true) => (printUsage ;;; ret (false, args'))%cv
    | Some (args', false) =>
        if String.eqb (inputPath args') "" then
          (cerr_put "--input is required" ;;; ret (false, args'))%cv
        else ret (true, args')
    end.

Context (cv : CvBackend).

(** The entry point: [Args args; if (!parseArgs(argc, argv, args)) return 1;]
    followed by the pipeline. *)
Definition program (argv : list string) : M Z :=
  (r <- parseArgs argv default_args ;;
   if r.1 then main cv r.2 else ret 1)%cv.

End Parse.

(** A computation that neither prints to [cout] nor calls [imwrite]. *)
Definition io_stable {A} (m : M A) : Prop :=
  forall w a w', m w = Some (a, w') ->
    cout w' = cout w /\ imwrite_log w' = imwrite_log w.

(** The text [pat] occurs somewhere in [s]. *)
Definition occurs_in (pat s : string) : Prop :=
  exists m, substring m (String.length pat) s = pat.

(** A command line as a sequence of options.  [Other] is an argument in
    key position that [parseArgs] does not know. *)
Inductive Flag : Type := FInput | FOutput | FCascade | FSrModel | FSrScale | FSharpen.

Inductive Opt : Type :=
  | Given (f : Flag) (v : string)
  | Other (tok : string).

Definition flag_name (f : Flag) : string :=
  match f with
  | FInput => "--input"
  | FOutput => "--output"
  | FCascade => "--cascade"
  | FSrModel => "--sr_model"
  | FSrScale => "--sr_scale"
  | FSharpen => "--sharpen"
  end.

Definition is_flag (tok : string) : bool :=
  String.eqb tok "--input" || String.eqb tok "--output" || String.eqb tok "--cascade"
  || String.eqb tok "--sr_model" || String.eqb tok "--sr_scale" || String.eqb tok "--sharpen".

Definition is_help (tok : string) : bool :=
  String.eqb tok "--help" || String.eqb tok "-h".

(** The arguments an option occupies. *)
Definition render (o : Opt) : list string :=
  match o with
  | Given f v => [flag_name f; v]
  | Other tok => [tok]
  end.

(** An unknown argument is neither a key nor a request for help. *)
Definition opt_ok (o : Opt) : Prop :=
  match o with
  | Given _ _ => True
  | Other tok => is_flag tok = false /\ is_help tok = false
  end.

(** What an option does to the record. *)
Definition apply_opt (stod : string -> option Qc) (o : Opt) (a : Args) : option Args :=
  match o with
  | Given FInput v => Some (set_inputPath v a)
  | Given FOutput v => Some (set_outputPath v a)
  | Given FCascade v => Some (set_cascadePath v a)
  | Given FSrModel v => Some (set_srModelPath v a)
  | Given FSrScale v =>
      match stod v with Some q => Some (set_srScale q a) | None => None end
  | Given FSharpen v =>
      match stod v with Some q => Some (set_sharpenAmount q a) | None => None end
  | Other _ => Some a
  end.

Fixpoint apply_opts (stod : string -> option Qc) (opts : list Opt) (a : Args) : option Args :=
  match opts with
  | [] => Some a
  | o :: os =>
      match apply_opt stod o a with
      | Some a' => apply_opts stod os a'
      | None => None
      end
  end.

(** A reader of plain decimal integers, enough to run the parser. *)
Definition digits_stod (s : string) : option Qc :=
  if String.eqb s "0" then Some (Q2Qc 0)
  else if String.eqb s "1" then Some (Q2Qc 1)
  else if String.eqb s "2" then Some (Q2Qc 2)
  else if String.eqb s "3" then Some (Q2Qc 3)
  else if String.eqb s "4" then Some (Q2Qc 4)
  else None.

End Cli.

Import Cli.

(** The demonstration backend with a cascade file that does not load. *)
Definition backend_no_cascade (img : Mat (Vec3 Z)) : CvBackend :=
  {| Cascade := unit;
     Net := unit;
     imread := fun _ => img;
     imwrite := fun _ _ => true;
     cascade_load := fun _ => None;
     cvtColor_BGR2GRAY := mat_map (fun p : Vec3 Z => p.1.1);
     equalizeHist := fun m => m;
     detectMultiScale := fun _ _ _ _ _ => [];
     GaussianBlur := fun m _ _ => m;
     cvtColor_BGR2YCrCb := fun m => m;
     cvtColor_YCrCb2BGR := fun m => m;
     clahe_apply := fun _ _ m => m;
     fastNlMeansDenoisingColored := fun m _ _ _ _ => m;
     inter_cubic := Demo.nearest;
     getGaussianKernel := fun ksize _ => Demo.box_kernel ksize;
     sr_readModel := fun _ => inl "Can't open model file";
     sr_upsample := fun _ _ _ m => inr m |}.

(** ** Matrices: shapes and pixel lookups *)

Section MatrixFacts.

Context {A B C : Type}.

Lemma px_Some_lt h w (m : Mat A) r c p :
  has_shape h w m -> px m r c = Some p -> (r < h)%nat /\ (c < w)%nat.
Proof.
  intros [Hlen Hrows] Hpx. unfold px in Hpx.
  destruct (m !! r) as [row|] eqn:Hr; [|done]. simpl in Hpx.
  split.
  - rewrite <- Hlen. by eapply lookup_lt_Some.
  - rewrite Forall_lookup in Hrows. pose proof (Hrows _ _ Hr) as Hw.
    simpl in Hw. rewrite <- Hw. by eapply lookup_lt_Some.
Qed.

Lemma px_is_Some h w (m : Mat A) r c :
  has_shape h w m -> (r < h)%nat -> (c < w)%nat -> is_Some (px m r c).
Proof.
  intros [Hlen Hrows] Hr Hc. unfold px.
  destruct (lookup_lt_is_Some_2 m r) as [row Hrow]; [lia|].
  rewrite Hrow. simpl. apply lookup_lt_is_Some_2.
  rewrite Forall_lookup in Hrows. pose proof (Hrows _ _ Hrow) as Hw.
  simpl in Hw. by rewrite Hw.
Qed.

Lemma mat_ext h w (m1 m2 : Mat A) :
  has_shape h w m1 -> has_shape h w m2 ->
  (forall r c, (r < h)%nat -> (c < w)%nat -> px m1 r c = px m2 r c) -> m1 = m2.
Proof.
  intros [Hl1 Hr1] [Hl2 Hr2] Hpx. apply list_eq. intros r.
  destruct (decide (r < h)%nat) as [Hr|Hr].
  - destruct (lookup_lt_is_Some_2 m1 r) as [row1 Hrow1]; [lia|].
    destruct (lookup_lt_is_Some_2 m2 r) as [row2 Hrow2]; [lia|].
    rewrite Hrow1, Hrow2. f_equal.
    rewrite Forall_lookup in Hr1, Hr2.
    pose proof (Hr1 _ _ Hrow1) as Hw1. pose proof (Hr2 _ _ Hrow2) as Hw2.
    simpl in Hw1, Hw2.
    apply list_eq. intros c.
    destruct (decide (c < w)%nat) as [Hc|Hc].
    + specialize (Hpx r c Hr Hc). unfold px in Hpx.
      by rewrite Hrow1, Hrow2 in Hpx.
    + rewrite !lookup_ge_None_2; [done|lia|lia].
  - rewrite !lookup_ge_None_2; [done|lia|lia].
Qed.

Lemma has_shape_cols h w (m : Mat A) :
  has_shape h w m -> (0 < h)%nat -> cols m = Z.of_nat w.
Proof.
  intros [Hlen Hrows] Hh. destruct m as [|row m]; simpl in *; [lia|].
  apply Forall_cons in Hrows as [Hw _]. simpl in Hw. by rewrite Hw.
Qed.

Lemma rows_nonneg (m : Mat A) : 0 <= rows m.
Proof. unfold rows. lia. Qed.

Lemma cols_nonneg (m : Mat A) : 0 <= cols m.
Proof. unfold cols. destruct m; lia. Qed.

Lemma has_shape_rows h w (m : Mat A) : has_shape h w m -> rows m = Z.of_nat h.
Proof. intros [Hlen _]. unfold rows. by rewrite Hlen. Qed.

Lemma has_shape_nonempty h w (m : Mat A) :
  has_shape h w m -> (0 < h)%nat -> (0 < w)%nat -> empty m = false.
Proof.
  intros Hs Hh Hw. unfold empty.
  rewrite (has_shape_rows _ _ _ Hs), (has_shape_cols _ _ _ Hs Hh).
  apply orb_false_intro; apply Z.eqb_neq; lia.
Qed.

Lemma mat_tab_shape h w (f : nat -> nat -> A) : has_shape h w (mat_tab h w f).
Proof.
  unfold mat_tab. split.
  - by rewrite length_fmap, length_seq.
  - apply Forall_fmap, Forall_forall. intros r _. simpl.
    by rewrite length_fmap, length_seq.
Qed.

Lemma px_mat_tab h w (f : nat -> nat -> A) r c :
  (r < h)%nat -> (c < w)%nat -> px (mat_tab h w f) r c = Some (f r c).
Proof.
  intros Hr Hc. unfold px, mat_tab.
  rewrite list_lookup_fmap, lookup_seq_lt by done. simpl.
  by rewrite list_lookup_fmap, lookup_seq_lt by done.
Qed.

Lemma mat_fill_shape h w (v : A) : has_shape h w (mat_fill h w v).
Proof.
  unfold mat_fill. split; [apply length_replicate|].
  apply Forall_replicate, length_replicate.
Qed.

Lemma px_mat_fill h w (v : A) r c :
  (r < h)%nat -> (c < w)%nat -> px (mat_fill h w v) r c = Some v.
Proof.
  intros Hr Hc. unfold px, mat_fill.
  rewrite lookup_replicate_2 by done. simpl. by apply lookup_replicate_2.
Qed.

Lemma px_mat_map (f : A -> B) (m : Mat A) r c :
  px (mat_map f m) r c = f <$> px m r c.
Proof.
  unfold px, mat_map. rewrite list_lookup_fmap.
  destruct (m !! r); simpl; [apply list_lookup_fmap|done].
Qed.

Lemma mat_map_shape h w (f : A -> B) (m : Mat A) :
  has_shape h w m -> has_shape h w (mat_map f m).
Proof.
  intros [Hlen Hrows]. unfold mat_map. split; [by rewrite length_fmap|].
  apply Forall_fmap. eapply Forall_impl; [exact Hrows|].
  intros row Hrow. simpl. by rewrite length_fmap.
Qed.

Lemma px_mat_zip_with (f : A -> B -> C) (m1 : Mat A) (m2 : Mat B) r c :
  px (mat_zip_with f m1 m2) r c
  = match px m1 r c, px m2 r c with
    | Some a, Some b => Some (f a b)
    | _, _ => None
    end.
Proof.
  unfold px, mat_zip_with. rewrite lookup_zip_with.
  destruct (m1 !! r) as [r1|]; simpl; [|done].
  destruct (m2 !! r) as [r2|]; simpl.
  - rewrite lookup_zip_with.
    destruct (r1 !! c); simpl; [|done]. by destruct (r2 !! c).
  - by destruct (r1 !! c).
Qed.

Lemma mat_zip_with_shape h w (f : A -> B -> C) (m1 : Mat A) (m2 : Mat B) :
  has_shape h w m1 -> has_shape h w m2 -> has_shape h w (mat_zip_with f m1 m2).
Proof.
  intros [Hl1 Hr1] [Hl2 Hr2]. unfold mat_zip_with. split.
  - rewrite length_zip_with. lia.
  - rewrite Forall_lookup in Hr1. rewrite Forall_lookup in Hr2.
    apply Forall_lookup. intros r row Hrow.
    rewrite lookup_zip_with in Hrow.
    destruct (m1 !! r) as [r1|] eqn:E1; simpl in Hrow; [|done].
    destruct (m2 !! r) as [r2|] eqn:E2; simpl in Hrow; [|done].
    injection Hrow as <-. rewrite length_zip_with.
    pose proof (Hr1 _ _ E1) as Hw1. pose proof (Hr2 _ _ E2) as Hw2.
    simpl in Hw1, Hw2. lia.
Qed.

End MatrixFacts.
(** ** Properties of the region locator and expander *)

Section PickLargest.

Lemma pickLargest_step_spec rects best i :
  let b := pickLargest_step rects best i in
  (b = best /\ area (rects !!! i) <= area (rects !!! best))
  \/ (b = i /\ area (rects !!! best) < area (rects !!! i)).
Proof.
  unfold pickLargest_step. cbn zeta.
  destruct (Z.gtb_spec (area (rects !!! i)) (area (rects !!! best))); [right|left]; lia.
Qed.

Lemma pickLargest_loop_inv rects n m best :
  first_max rects m best ->
  first_max rects (m + n) (fold_left (pickLargest_step rects) (seq m n) best).
Proof.
  revert m best. induction n as [|n IH]; intros m best Hinv; simpl.
  - by replace (m + 0)%nat with m by lia.
  - replace (m + S n)%nat with (S m + n)%nat by lia. apply IH.
    destruct Hinv as (Hlt & Hmax & Hfirst).
    destruct (pickLargest_step_spec rects best m) as [[-> Hle]|[-> Hgt]].
    + split_and!; [lia| |done].
      intros j Hj. destruct (decide (j = m)) as [->|]; [done|]. apply Hmax. lia.
    + split_and!; [lia| |].
      * intros j Hj. destruct (decide (j = m)) as [->|]; [lia|].
        specialize (Hmax j). lia.
      * intros j Hj. specialize (Hmax j). lia.
  Qed.

Lemma pickLargest_index_first_max rects :
  rects <> [] -> first_max rects (length rects) (pickLargest_index rects).
Proof.
  intros Hne. unfold pickLargest_index.
  assert (0 < length rects)%nat by (destruct rects; [done | simpl; lia]).
  replace (length rects) with (1 + (length rects - 1))%nat at 1 by lia.
  apply pickLargest_loop_inv. split_and!; [lia| |lia].
  intros j Hj. by replace j with 0%nat by lia.
Qed.

End PickLargest.

(** C10. [pickLargest] returns the zero-area sentinel on the empty
    candidate list; on a non-empty list it returns a candidate of maximal
    area, and among the candidates of that maximal area the one that comes
    first in the detector's output order. *)
Theorem pickLargest_correct (rects : list Rect) :
  (rects = [] -> pickLargest rects = zeroRect /\ area (pickLargest rects) = 0)
  /\ (rects <> [] ->
      exists i, rects !! i = Some (pickLargest rects)
        /\ (forall j r, rects !! j = Some r -> area r <= area (pickLargest rects))
        /\ (forall j r, (j < i)%nat -> rects !! j = Some r ->
              area r < area (pickLargest rects))).
Proof.
  split.
  - by intros ->.
  - intros Hne. destruct (pickLargest_index_first_max rects Hne) as (Hlt & Hmax & Hfirst).
    exists (pickLargest_index rects).
    assert (pickLargest rects = rects !!! pickLargest_index rects) as ->
      by (by destruct rects).
    split_and!.
    + by apply list_lookup_lookup_total_lt.
    + intros j r Hj. rewrite <- (list_lookup_total_correct _ _ _ Hj).
      apply Hmax. by eapply lookup_lt_Some.
    + intros j r Hji Hj. rewrite <- (list_lookup_total_correct _ _ _ Hj).
      by apply Hfirst.
Qed.

Lemma pickLargest_correct_witness :
  let rects := [mkRect 10 10 40 40; mkRect 0 0 50 60; mkRect 5 5 60 50] in
  pickLargest rects = mkRect 0 0 50 60
  /\ exists i, rects !! i = Some (pickLargest rects)
      /\ (forall j r, rects !! j = Some r -> area r <= area (pickLargest rects))
      /\ (forall j r, (j < i)%nat -> rects !! j = Some r ->
            area r < area (pickLargest rects)).
Proof.
  split; [reflexivity|].
  apply (pickLargest_correct [mkRect 10 10 40 40; mkRect 0 0 50 60; mkRect 5 5 60 50]).
  discriminate.
Defined.

Section Expander.

Lemma quot_nonneg a b : 0 <= a -> 0 < b -> 0 <= a ÷ b.
Proof. intros. apply Z.quot_pos; lia. Qed.

Lemma expandROI_rect_inv (faceRect : Rect) (cols rows : Z) :
  rect_inv faceRect cols rows -> rect_inv (expandROI faceRect cols rows) cols rows.
Proof.
  intros (Hx & Hy & Hxw & Hyh & Hw & Hh).
  pose proof (quot_nonneg (width faceRect) 8 ltac:(lia) ltac:(lia)) as HpX.
  pose proof (quot_nonneg (height faceRect) 6 ltac:(lia) ltac:(lia)) as HpY.
  unfold rect_inv, expandROI, padX, padY in *. simpl. lia.
Qed.

Lemma expandROI_contains (faceRect : Rect) (cols rows : Z) :
  rect_inv faceRect cols rows -> rect_contains (expandROI faceRect cols rows) faceRect.
Proof.
  intros (Hx & Hy & Hxw & Hyh & Hw & Hh).
  pose proof (quot_nonneg (width faceRect) 8 ltac:(lia) ltac:(lia)) as HpX.
  pose proof (quot_nonneg (height faceRect) 6 ltac:(lia) ltac:(lia)) as HpY.
  unfold rect_contains, expandROI, padX, padY in *. simpl. lia.
Qed.

(** A member of the candidate list is returned whenever the list is not
    empty. *)
Lemma pickLargest_elem (rects : list Rect) :
  rects <> [] -> pickLargest rects ∈ rects.
Proof.
  intros Hne. destruct (pickLargest_index_first_max rects Hne) as (Hlt & _ & _).
  assert (pickLargest rects = rects !!! pickLargest_index rects) as ->
    by (by destruct rects).
  apply list_elem_of_lookup. exists (pickLargest_index rects).
  by apply list_lookup_lookup_total_lt.
Qed.

End Expander.

(** C7. For a non-degenerate detected rectangle inside the image, the
    expanded rectangle satisfies the Rect invariant and contains the
    detected rectangle. *)
Theorem expandROI_invariant (faceRect : Rect) (cols rows : Z) :
  rect_inv faceRect cols rows ->
  rect_inv (expandROI faceRect cols rows) cols rows
  /\ rect_contains (expandROI faceRect cols rows) faceRect.
Proof.
  intros Hinv. split; [by apply expandROI_rect_inv|by apply expandROI_contains].
Qed.

Lemma expandROI_invariant_witness :
  rect_inv (mkRect 100 100 100 120) 400 400
  /\ rect_inv (expandROI (mkRect 100 100 100 120) 400 400) 400 400
  /\ rect_contains (expandROI (mkRect 100 100 100 120) 400 400)
       (mkRect 100 100 100 120).
Proof.
  assert (H : rect_inv (mkRect 100 100 100 120) 400 400)
    by (unfold rect_inv; simpl; lia).
  split; [exact H|]. apply (expandROI_invariant _ 400 400 H).
Defined.

(** C8. The expansion pads by [width / 8] horizontally and [height / 6]
    vertically: the code computes exactly the rectangle of the stated
    policy (origin shifted by the pad and kept at or above zero, each
    extent min-capped by the space left after the origin shift), that
    rectangle never leaves the image, and whenever the padded rectangle
    fits in the image each side has moved by exactly the pad. *)
Theorem expandROI_policy (faceRect : Rect) (cols rows : Z) :
  0 < width faceRect -> 0 < height faceRect ->
  let roi := expandROI faceRect cols rows in
  roi = expand_spec faceRect cols rows
  /\ padX faceRect = width faceRect `div` 8
  /\ padY faceRect = height faceRect `div` 6
  /\ 0 <= x roi /\ 0 <= y roi
  /\ x roi + width roi <= cols /\ y roi + height roi <= rows
  /\ (padX faceRect <= x faceRect ->
      x faceRect + width faceRect + padX faceRect <= cols ->
      x roi = x faceRect - padX faceRect
      /\ x roi + width roi = x faceRect + width faceRect + padX faceRect)
  /\ (padY faceRect <= y faceRect ->
      y faceRect + height faceRect + padY faceRect <= rows ->
      y roi = y faceRect - padY faceRect
      /\ y roi + height roi = y faceRect + height faceRect + padY faceRect).
Proof.
  intros Hw Hh roi.
  assert (HqX : width faceRect ÷ 8 = width faceRect `div` 8)
    by (apply Z.quot_div_nonneg; lia).
  assert (HqY : height faceRect ÷ 6 = height faceRect `div` 6)
    by (apply Z.quot_div_nonneg; lia).
  subst roi. unfold expandROI, expand_spec, padX, padY. simpl.
  rewrite HqX, HqY.
  split_and!; try lia.
  - f_equal; repeat case_decide; lia.
Qed.

Lemma expandROI_policy_witness :
  expandROI (mkRect 100 100 100 120) 400 400 = mkRect 88 80 124 160
  /\ expandROI (mkRect 100 100 100 120) 400 400
     = expand_spec (mkRect 100 100 100 120) 400 400.
Proof.
  split; [reflexivity|].
  apply (expandROI_policy (mkRect 100 100 100 120) 400 400); simpl; lia.
Defined.


(** ** Windows of a matrix: [crop] and [blit] *)

Section Windows.

Context {A : Type}.

Lemma px_crop (m : Mat A) (r : Rect) i j :
  px (crop m r) i j
  = if decide ((i < Z.to_nat (height r))%nat /\ (j < Z.to_nat (width r))%nat)
    then px m (Z.to_nat (y r) + i) (Z.to_nat (x r) + j) else None.
Proof.
  unfold px, crop. rewrite list_lookup_fmap, lookup_take, lookup_drop.
  case_decide as Hi.
  - destruct (m !! (Z.to_nat (y r) + i)%nat) as [row|]; simpl.
    + rewrite lookup_take, lookup_drop.
      case_decide; case_decide; try done; lia.
    + by case_decide.
  - simpl. case_decide; [lia|done].
Qed.

Lemma crop_shape h w (m : Mat A) (r : Rect) :
  has_shape h w m -> window_in r h w ->
  has_shape (Z.to_nat (height r)) (Z.to_nat (width r)) (crop m r).
Proof.
  intros [Hlen Hrows] (Hx & Hy & Hw & Hh & Hxw & Hyh). unfold crop. split.
  - rewrite length_fmap, length_take, length_drop. lia.
  - apply Forall_fmap, Forall_forall. intros row Hrow. simpl.
    apply elem_of_take in Hrow as (i & Hrow & _).
    rewrite lookup_drop in Hrow.
    rewrite Forall_lookup in Hrows. pose proof (Hrows _ _ Hrow) as Hl. simpl in Hl.
    rewrite length_take, length_drop. lia.
Qed.

Lemma crop_whole h w (m : Mat A) : has_shape h w m -> crop m (whole m) = m.
Proof.
  intros Hs. destruct (decide (0 < h)%nat) as [Hh|Hh].
  - assert (Hw0 : window_in (whole m) h w).
    { unfold window_in, whole. simpl.
      rewrite (has_shape_rows _ _ _ Hs), (has_shape_cols _ _ _ Hs Hh). lia. }
    pose proof (crop_shape h w m (whole m) Hs Hw0) as Hc.
    unfold whole in Hc at 1 2. simpl in Hc.
    rewrite (has_shape_rows _ _ _ Hs), (has_shape_cols _ _ _ Hs Hh), !Nat2Z.id in Hc.
    apply (mat_ext h w); [done|done|]. intros i j Hi Hj.
    rewrite px_crop. unfold whole. simpl.
    rewrite (has_shape_rows _ _ _ Hs), (has_shape_cols _ _ _ Hs Hh), !Nat2Z.id.
    case_decide; [done|lia].
  - destruct Hs as [Hlen _]. by destruct m; simpl in *; [|lia].
Qed.

Lemma blit_shape h w (m blk : Mat A) (r : Rect) :
  has_shape h w m -> has_shape h w (blit m r blk).
Proof.
  intros [Hlen Hrows]. unfold blit. split; [by rewrite length_imap|].
  rewrite Forall_lookup in Hrows. apply Forall_lookup. intros i row Hrow.
  rewrite list_lookup_imap in Hrow.
  destruct (m !! i) as [row0|] eqn:E; simpl in Hrow; [|done].
  injection Hrow as <-. pose proof (Hrows _ _ E) as Hl. simpl in Hl.
  case_decide; [by rewrite length_imap|done].
Qed.

Lemma px_blit (m blk : Mat A) (r : Rect) i j :
  px (blit m r blk) i j
  = match px m i j with
    | Some p =>
        if decide ((y r <= Z.of_nat i < y r + height r)
                   /\ (x r <= Z.of_nat j < x r + width r))
        then Some (default p (px blk (i - Z.to_nat (y r)) (j - Z.to_nat (x r))))
        else Some p
    | None => None
    end.
Proof.
  unfold blit. unfold px at 1 3. rewrite list_lookup_imap.
  destruct (m !! i) as [row|]; simpl; [|done].
  case_decide as Hi.
  - rewrite list_lookup_imap. destruct (row !! j) as [p|]; simpl; [|done].
    case_decide; case_decide; try done; lia.
  - destruct (row !! j) as [p|]; simpl; [|done].
    case_decide; [lia|done].
Qed.

(** Pixels outside the window are not touched by [blit]. *)
Lemma px_blit_outside (m blk : Mat A) (r : Rect) i j :
  ~ (y r <= Z.of_nat i < y r + height r /\ x r <= Z.of_nat j < x r + width r) ->
  px (blit m r blk) i j = px m i j.
Proof.
  intros Hout. rewrite px_blit. destruct (px m i j); [|done].
  case_decide; [done|done].
Qed.

(** Writing back what the window already shows changes nothing. *)
Lemma blit_crop_id h w (m : Mat A) (r : Rect) :
  has_shape h w m -> window_in r h w -> blit m r (crop m r) = m.
Proof.
  intros Hs (Hx & Hy & Hw & Hh & Hxw & Hyh).
  apply (mat_ext h w); [by apply blit_shape|done|].
  intros i j Hi Hj. rewrite px_blit.
  destruct (px_is_Some h w m i j Hs Hi Hj) as [p Hp]. rewrite Hp.
  case_decide as Hin; [|done].
  rewrite px_crop. case_decide as Hc; [|lia].
  replace (Z.to_nat (y r) + (i - Z.to_nat (y r)))%nat with i by lia.
  replace (Z.to_nat (x r) + (j - Z.to_nat (x r)))%nat with j by lia.
  by rewrite Hp.
Qed.

End Windows.

(** ** Rounding and saturation *)

Section Rounding.

Lemma this_ofZ z : this (ofZ z) = inject_Z z.
Proof. unfold ofZ. simpl. apply Qred_identity. simpl. apply Z.gcd_1_r. Qed.

Lemma cvRound_ofZ z : cvRound (ofZ z) = z.
Proof.
  unfold cvRound. rewrite this_ofZ. simpl.
  by rewrite Z.mod_1_r, Z.div_1_r.
Qed.


Lemma Qcle_ofZ_l z (v : Qc) : (ofZ z <= v)%Qc <-> z * Z.pos (Qden v) <= Qnum v.
Proof. unfold Qcle. rewrite this_ofZ. unfold Qle. simpl. lia. Qed.



(** An integer below [v] is below [cvRound v]. *)
Lemma cvRound_ge_int z (v : Qc) : (ofZ z <= v)%Qc -> z <= cvRound v.
Proof.
  rewrite Qcle_ofZ_l. intros Hz. unfold cvRound.
  set (n := Qnum v) in *. set (d := Z.pos (Qden v)) in *.
  assert (z <= n `div` d) by (apply Z.div_le_lower_bound; lia).
  destruct (2 * (n `mod` d) ?= d); [destruct (Z.even _)| |]; lia.
Qed.


Lemma saturate_u8_id z : is_u8 z -> saturate_u8 z = z.
Proof. unfold is_u8, saturate_u8. lia. Qed.


Lemma scale_255_inv : (Q2Qc (1 # 255) * Q2Qc 255 = 1)%Qc.
Proof. apply Qc_is_canon. reflexivity. Qed.

Lemma ofZ_mult a b : (ofZ a * ofZ b)%Qc = ofZ (a * b).
Proof.
  apply Qc_is_canon. rewrite this_ofZ. unfold Qcmult, Q2Qc. cbn [this].
  rewrite Qred_correct, !this_ofZ. unfold Qeq. simpl. lia.
Qed.

Lemma ofZ_le a b : a <= b -> (ofZ a <= ofZ b)%Qc.
Proof. intros H. apply Qcle_ofZ_l. rewrite this_ofZ. simpl. lia. Qed.

End Rounding.

(** ** The unsharp mask *)

Section UnsharpMask.

Context (cv : CvBackend).




End UnsharpMask.



(** ** The feather mask *)

Section FeatherMask.

Lemma borderInterpolate_range p len :
  0 < len -> 0 <= borderInterpolate p len < len.
Proof.
  intros Hlen. unfold borderInterpolate.
  case_decide; [lia|]. case_decide; [lia|].
  pose proof (Z.mod_pos_bound p (2 * (len - 1)) ltac:(lia)).
  cbn zeta. case_decide; lia.
Qed.

(** A constant signal stays constant under a 1-D correlation with border
    reflection: every tap reads the same value. *)
Lemma weighted_taps_const (kernel : list Qc) (idx : nat -> nat) (get : nat -> Qc) v :
  (forall k, get (idx k) = v) ->
  foldr Qcplus 0%Qc (imap (fun k w => (w * get (idx k))%Qc) kernel)
  = (foldr Qcplus 0%Qc kernel * v)%Qc.
Proof.
  revert idx. induction kernel as [|w kernel IH]; intros idx Hget; simpl.
  - ring.
  - specialize (IH (idx ∘ S) (fun k => Hget (S k))).
    unfold compose in IH |- *. cbn beta in IH |- *. rewrite IH, Hget. ring.
Qed.

Lemma tap_sum_const (kernel : list Qc) anchor (len : nat) (get : nat -> Qc) v i :
  (0 < len)%nat ->
  (forall j, (j < len)%nat -> get j = v) ->
  tap_sum kernel anchor (Z.of_nat len) get i = (foldr Qcplus 0%Qc kernel * v)%Qc.
Proof.
  intros Hlen Hget. unfold tap_sum.
  apply (weighted_taps_const kernel
           (fun k => Z.to_nat (borderInterpolate (Z.of_nat i + Z.of_nat k - anchor)
                                 (Z.of_nat len)))).
  intros k. apply Hget.
  pose proof (borderInterpolate_range (Z.of_nat i + Z.of_nat k - anchor) (Z.of_nat len)).
  lia.
Qed.

Lemma imap_replicate_const {A B} (f : nat -> A -> B) n (a : A) (b : B) :
  (forall i, (i < n)%nat -> f i a = b) -> imap f (replicate n a) = replicate n b.
Proof.
  intros Hf. apply list_eq. intros i. rewrite list_lookup_imap.
  destruct (decide (i < n)%nat) as [Hi|Hi].
  - rewrite !lookup_replicate_2 by done. simpl. by rewrite Hf.
  - rewrite !(proj1 (lookup_replicate_None _ _ _)) by lia. done.
Qed.

Lemma filter_rows_fill (kernelX : list Qc) h w v :
  filter_rows kernelX (mat_fill h w v)
  = mat_fill h w (foldr Qcplus 0%Qc kernelX * v)%Qc.
Proof.
  unfold filter_rows, mat_fill. rewrite fmap_replicate. f_equal.
  rewrite length_replicate. apply imap_replicate_const. intros c Hc.
  apply tap_sum_const; [lia|]. intros j Hj. by apply lookup_total_replicate_2.
Qed.

Lemma filter_cols_fill (kernelY : list Qc) h w v :
  filter_cols kernelY (mat_fill h w v)
  = mat_fill h w (foldr Qcplus 0%Qc kernelY * v)%Qc.
Proof.
  unfold filter_cols, mat_fill. rewrite length_replicate.
  apply imap_replicate_const. intros r Hr.
  apply imap_replicate_const. intros c Hc.
  apply tap_sum_const; [lia|]. intros j Hj.
  rewrite lookup_total_replicate_2 by done. by apply lookup_total_replicate_2.
Qed.

(** The separable filter maps a constant field to a constant field. *)
Lemma sepFilter2D_fill (kernelX kernelY : list Qc) h w v :
  exists v', sepFilter2D (mat_fill h w v) kernelX kernelY = mat_fill h w v'.
Proof.
  unfold sepFilter2D. rewrite filter_rows_fill, filter_cols_fill. eauto.
Qed.

Lemma Qc_min_idem v : Qc_min v v = v.
Proof. unfold Qc_min. by case_decide. Qed.

Lemma Qc_max_idem v : Qc_max v v = v.
Proof. unfold Qc_max. by case_decide. Qed.

Lemma foldl_idem (f : Qc -> Qc -> Qc) v (vs : list Qc) :
  f v v = v -> Forall (eq v) vs -> foldl f v vs = v.
Proof.
  intros Hf Hall. induction Hall as [|x vs <- _ IH]; simpl; [done|].
  by rewrite Hf.
Qed.

(** Minimum and maximum of a constant field coincide. *)
Lemma minMaxIdx_fill h w v : exists s, minMaxIdx (mat_fill h w v) = (s, s).
Proof.
  unfold minMaxIdx.
  assert (Hall : Forall (eq v) (concat (mat_fill h w v))).
  { apply Forall_concat. unfold mat_fill.
    apply Forall_replicate, Forall_replicate_eq. }
  destruct (concat (mat_fill h w v)) as [|x vs]; [by exists 0%Qc|].
  apply Forall_cons in Hall as [<- Hall]. exists v.
  by rewrite !foldl_idem by (done || apply Qc_min_idem || apply Qc_max_idem).
Qed.

(** [normalize] with [NORM_MINMAX] sends a constant field to the lower
    bound of the target range: its scale factor is zero. *)
Lemma normalize_minmax_fill h w v :
  normalize_minmax (mat_fill h w v) 0%Qc 1%Qc = mat_fill h w 0%Qc.
Proof.
  unfold normalize_minmax.
  destruct (minMaxIdx_fill h w v) as [s ->].
  replace (s - s)%Qc with 0%Qc by ring.
  case_decide as Heps; [done|].
  unfold mat_map, mat_fill. rewrite !fmap_replicate. do 2 f_equal.
  assert (Hmin : Qc_min 0 1 = 0%Qc) by done. rewrite Hmin. ring.
Qed.

Context (cv : CvBackend).

(** The mask [featherMask] computes is zero everywhere. *)
Lemma featherMask_zero (size : Size) (radius : Z) :
  featherMask cv size radius
  = mat_fill (Z.to_nat (sh size)) (Z.to_nat (sw size)) 0%Qc.
Proof.
  unfold featherMask. cbn zeta.
  destruct (sepFilter2D_fill
              (getGaussianKernel cv (Z.max 1 radius * 2 + 1) (ofZ (Z.max 1 radius)))
              (getGaussianKernel cv (Z.max 1 radius * 2 + 1) (ofZ (Z.max 1 radius)))
              (Z.to_nat (sh size)) (Z.to_nat (sw size)) 1%Qc) as [v' ->].
  apply normalize_minmax_fill.
Qed.

End FeatherMask.

(** ** The feathered composite *)

Section Composite.

Context (cv : CvBackend).

Lemma px_u8 (m : Mat (Vec3 Z)) r c p : mat_u8 m -> px m r c = Some p -> vec3_u8 p.
Proof.
  intros Hu Hp. unfold px in Hp.
  destruct (m !! r) as [row|] eqn:Hr; [|done]. simpl in Hp.
  unfold mat_u8 in Hu. rewrite Forall_lookup in Hu.
  pose proof (Hu _ _ Hr) as Hrow. rewrite Forall_lookup in Hrow. by eapply Hrow.
Qed.

(** With mask value 0 the blend gives back the destination sample. *)
Lemma blend_channel_zero (s d : Z) :
  is_u8 d ->
  saturate_cast_u8
    ((ofZ s * Q2Qc (1 # 255) * 0 + ofZ d * Q2Qc (1 # 255) * (1 - 0)) * Q2Qc 255)%Qc = d.
Proof.
  intros Hd.
  replace ((ofZ s * Q2Qc (1 # 255) * 0 + ofZ d * Q2Qc (1 # 255) * (1 - 0)) * Q2Qc 255)%Qc
    with (ofZ d * (Q2Qc (1 # 255) * Q2Qc 255))%Qc by ring.
  rewrite scale_255_inv.
  replace (ofZ d * 1)%Qc with (ofZ d) by ring.
  unfold saturate_cast_u8. rewrite cvRound_ofZ. by apply saturate_u8_id.
Qed.

Lemma feather_blend_shape h w (resizedFace dst : Mat (Vec3 Z)) (mask : Mat Qc) :
  has_shape h w resizedFace -> has_shape h w dst -> has_shape h w mask ->
  has_shape h w (feather_blend resizedFace dst mask).
Proof.
  intros Hf Hd Hm. unfold feather_blend, convertTo_8U, convertTo_32F,
    mat_add, mat_mul, scalar_sub. cbn zeta.
  repeat (apply mat_map_shape || apply mat_zip_with_shape); done.
Qed.

Lemma feather_blend_zero h w (resizedFace dst : Mat (Vec3 Z)) :
  has_shape h w resizedFace -> has_shape h w dst -> mat_u8 dst ->
  feather_blend resizedFace dst (mat_fill h w 0%Qc) = dst.
Proof.
  intros Hf Hd Hu. apply (mat_ext h w); [|done|].
  - apply feather_blend_shape; [done|done|apply mat_fill_shape].
  - intros r c Hr Hc.
    destruct (px_is_Some h w resizedFace r c Hf Hr Hc) as [[[s1 s2] s3] Hs].
    destruct (px_is_Some h w dst r c Hd Hr Hc) as [[[d1 d2] d3] Hdst].
    destruct (px_u8 _ _ _ _ Hu Hdst) as (H1 & H2 & H3).
    unfold feather_blend, convertTo_8U, convertTo_32F, mat_add, mat_mul, scalar_sub.
    cbn zeta.
    rewrite px_mat_map, !px_mat_zip_with, !px_mat_map.
    rewrite Hs, Hdst, px_mat_fill by done. simpl.
    by rewrite !blend_channel_zero.
Qed.

End Composite.

(** ** Resampling and the super-resolution stage *)

Section SuperResolution.

Context (cv : CvBackend).

Lemma bind_Some {A B} (m : M A) (k : A -> M B) w b w' :
  bind m k w = Some (b, w') <-> exists a w1, m w = Some (a, w1) /\ k a w1 = Some (b, w').
Proof.
  unfold bind. split.
  - destruct (m w) as [[a w1]|]; [|done]. intros H. by exists a, w1.
  - intros (a & w1 & -> & H). done.
Qed.

Lemma world_eta w : mkWorld (heap w) (cerr w) (cout w) (imwrite_log w) = w.
Proof. by destruct w. Qed.

Lemma add_cerr_nil w : add_cerr [] w = w.
Proof. unfold add_cerr. rewrite app_nil_r. apply world_eta. Qed.

Lemma resize_to_Some h w (src : Mat (Vec3 Z)) (dsize : Size) :
  has_shape h w src -> (0 < h)%nat -> (0 < w)%nat -> 0 < sw dsize -> 0 < sh dsize ->
  resize_to cv src dsize
  = Some (mat_tab (Z.to_nat (sh dsize)) (Z.to_nat (sw dsize)) (inter_cubic cv src dsize)).
Proof.
  intros Hs Hh Hw Hsw Hsh. unfold resize_to.
  rewrite (has_shape_nonempty h w) by done.
  case_decide; [lia|done].
Qed.

Lemma scaled_dim_ge (d : Z) (s : Qc) :
  0 <= d -> (1 <= s)%Qc -> d <= cvRound (ofZ d * s).
Proof.
  intros Hd Hs. apply cvRound_ge_int.
  replace (ofZ d) with (ofZ d * 1)%Qc at 1 by ring.
  apply Qcmult_le_mono_nonneg_l; [|done].
  change (Q2Qc 0) with (ofZ 0). by apply ofZ_le.
Qed.

Lemma resize_by_Some h w (src : Mat (Vec3 Z)) (s : Qc) :
  has_shape h w src -> (0 < h)%nat -> (0 < w)%nat -> (1 <= s)%Qc ->
  exists out,
    resize_by cv src s s = Some out
    /\ has_shape (Z.to_nat (cvRound (ofZ (rows src) * s)))
                 (Z.to_nat (cvRound (ofZ (cols src) * s))) out.
Proof.
  intros Hs Hh Hw Hs1. unfold resize_by.
  rewrite (has_shape_nonempty h w) by done.
  assert (Hpos : (0 < s)%Qc) by (eapply Qclt_le_trans; [|exact Hs1]; done).
  case_decide as Hneg.
  { destruct Hneg as [Hneg|Hneg]; by apply Qclt_not_le in Hpos. }
  pose proof (scaled_dim_ge (rows src) s) as Hr.
  pose proof (scaled_dim_ge (cols src) s) as Hc.
  rewrite (has_shape_rows _ _ _ Hs) in Hr |- *.
  rewrite (has_shape_cols _ _ _ Hs Hh) in Hc |- *.
  specialize (Hr ltac:(lia) Hs1). specialize (Hc ltac:(lia) Hs1).
  erewrite resize_to_Some by (done || simpl; lia).
  eexists. split; [done|]. apply mat_tab_shape.
Qed.

Lemma std_round_ge_1 (s : Qc) : (1 <= s)%Qc -> 1 <= std_round s.
Proof.
  intros Hs. change 1%Qc with (ofZ 1) in Hs. apply Qcle_ofZ_l in Hs.
  unfold std_round. case_decide; [|lia].
  apply Z.div_le_lower_bound; lia.
Qed.

Lemma sr_requested_scale args : sr_requested args = true -> (1 <= srScale args)%Qc.
Proof.
  unfold sr_requested. intros [_ H]%andb_true_iff.
  apply bool_decide_eq_true_1 in H.
  eapply Qcle_trans; [|exact H]. done.
Qed.

Lemma effective_scale_ge_1 args face : (1 <= effective_scale cv args face)%Qc.
Proof.
  unfold effective_scale. destruct (sr_requested args) eqn:Hreq.
  - pose proof (sr_requested_scale args Hreq) as Hs.
    destruct (sr_try cv args face); [done|].
    change 1%Qc with (ofZ 1). apply ofZ_le. by apply std_round_ge_1.
  - case_decide as Hlt; [|done]. apply Qclt_le_weak.
    eapply Qclt_trans; [|exact Hlt]. done.
Qed.

Lemma sr_try_shape h w args face up :
  CvContract cv -> has_shape h w face -> sr_try cv args face = inr up ->
  has_shape (Z.to_nat (std_round (srScale args)) * h)
            (Z.to_nat (std_round (srScale args)) * w) up.
Proof.
  intros Hcv Hs. unfold sr_try.
  destruct (sr_readModel cv (srModelPath args)) as [?|net]; [done|].
  by apply (upsample_shape cv Hcv).
Qed.

(** What the stage returns, which lines it logs, and the size of its
    result. *)
Lemma superResolution_run h w args (face : Mat (Vec3 Z)) wld :
  CvContract cv -> has_shape h w face -> (0 < h)%nat -> (0 < w)%nat ->
  exists out,
    superResolution cv args face wld
      = Some (out, add_cerr (sr_diagnostics cv args face) wld)
    /\ has_shape (Z.to_nat (cvRound (ofZ (rows face) * effective_scale cv args face)))
                 (Z.to_nat (cvRound (ofZ (cols face) * effective_scale cv args face))) out.
Proof.
  intros Hcv Hs Hh Hw.
  unfold superResolution, sr_diagnostics, effective_scale.
  destruct (sr_requested args) eqn:Hreq.
  - pose proof (sr_requested_scale args Hreq) as Hs1.
    destruct (sr_try cv args face) as [what|up] eqn:Htry.
    + destruct (resize_by_Some h w face (srScale args) Hs Hh Hw Hs1) as (out & Hout & Hshape).
      exists out. split; [|done].
      unfold bind, cerr_put, lift. by rewrite Hout.
    + exists up. split; [by rewrite add_cerr_nil|].
      pose proof (sr_try_shape h w args face up Hcv Hs Htry) as Hup.
      rewrite !ofZ_mult, !cvRound_ofZ.
      rewrite (has_shape_rows _ _ _ Hs), (has_shape_cols _ _ _ Hs Hh).
      pose proof (std_round_ge_1 _ Hs1).
      rewrite !Z2Nat.inj_mul, !Nat2Z.id by lia.
      by rewrite !(Nat.mul_comm _ (Z.to_nat (std_round (srScale args)))).
  - rewrite add_cerr_nil. case_decide as Hlt.
    + assert (Hs1 : (1 <= srScale args)%Qc).
      { apply Qclt_le_weak. eapply Qclt_trans; [|exact Hlt]. done. }
      destruct (resize_by_Some h w face (srScale args) Hs Hh Hw Hs1) as (out & Hout & Hshape).
      exists out. split; [|done]. unfold lift. by rewrite Hout.
    + exists face. split; [done|].
      replace (ofZ (rows face) * 1)%Qc with (ofZ (rows face)) by ring.
      replace (ofZ (cols face) * 1)%Qc with (ofZ (cols face)) by ring.
      rewrite !cvRound_ofZ.
      by rewrite (has_shape_rows _ _ _ Hs), (has_shape_cols _ _ _ Hs Hh), !Nat2Z.id.
Qed.

End SuperResolution.

(** ** The demonstration backend honours the contract *)

Section DemoFacts.

Lemma demo_contract img faces ok : CvContract (Demo.backend img faces ok).
Proof.
  split; simpl; try done.
  - intros h w m _ _ _ _ Hs. by apply mat_map_shape.
  - intros h w _ _ k m up Hs [= <-]. unfold Demo.replicate_px.
    destruct (decide (0 < h)%nat) as [Hh|Hh].
    + rewrite (has_shape_rows _ _ _ Hs), (has_shape_cols _ _ _ Hs Hh).
      destruct (decide (0 <= k)) as [Hk|Hk].
      * rewrite !Z2Nat.inj_mul, !Nat2Z.id by lia. apply mat_tab_shape.
      * replace (Z.to_nat (k * Z.of_nat h)) with 0%nat by nia.
        replace (Z.to_nat k) with 0%nat by lia. simpl. split; [done|constructor].
    + rewrite (has_shape_rows _ _ _ Hs).
      replace h with 0%nat by lia.
      replace (Z.to_nat (k * Z.of_nat 0)) with 0%nat by lia.
      rewrite Nat.mul_0_r. split; [done|constructor].
Qed.

Lemma gradient_shape h w : has_shape h w (Demo.gradient h w).
Proof. apply mat_tab_shape. Qed.

Lemma gradient_u8 h w : mat_u8 (Demo.gradient h w).
Proof.
  unfold mat_u8, Demo.gradient, mat_tab.
  apply Forall_fmap, Forall_forall. intros r _. simpl.
  apply Forall_fmap, Forall_forall. intros c _. simpl.
  unfold is_u8.
  pose proof (Z.mod_pos_bound (Z.of_nat r) 256 ltac:(lia)).
  pose proof (Z.mod_pos_bound (Z.of_nat c) 256 ltac:(lia)).
  pose proof (Z.mod_pos_bound (Z.of_nat r + Z.of_nat c) 256 ltac:(lia)).
  lia.
Qed.

End DemoFacts.




(** A model invocation that throws: the stage writes the diagnostic line
    and returns the bicubic resampling at the requested scale, which is
    what it returns when no model is supplied. *)
Lemma sr_failure_stage (cv : CvBackend) (args : Args) (face : Mat (Vec3 Z))
    (h w : nat) (wld : World) (what : string) :
  has_shape h w face -> (0 < h)%nat -> (0 < w)%nat ->
  sr_requested args = true ->
  sr_try cv args face = inl what ->
  exists up,
    resize_by cv face (srScale args) (srScale args) = Some up
    /\ superResolution cv args face wld
       = Some (up, add_cerr ["Super-resolution failed: " +:+ what +:+ ". Using bicubic."] wld)
    /\ superResolution cv (without_model args) face wld = Some (up, wld)
    /\ rows up = cvRound (ofZ (rows face) * srScale args)
    /\ cols up = cvRound (ofZ (cols face) * srScale args).
Proof.
  intros Hs Hh Hw Hreq Htry.
  pose proof (sr_requested_scale args Hreq) as Hs1.
  destruct (resize_by_Some cv h w face (srScale args) Hs Hh Hw Hs1) as (up & Hup & Hshape).
  pose proof (scaled_dim_ge (rows face) (srScale args)) as Hr.
  pose proof (scaled_dim_ge (cols face) (srScale args)) as Hc.
  pose proof (has_shape_rows _ _ _ Hs) as Hrows.
  pose proof (has_shape_cols _ _ _ Hs Hh) as Hcols.
  specialize (Hr ltac:(lia) Hs1). specialize (Hc ltac:(lia) Hs1).
  exists up. split_and!; [done| | | |].
  - unfold superResolution. rewrite Hreq, Htry.
    unfold bind, cerr_put, lift. by rewrite Hup.
  - unfold superResolution, sr_requested, without_model. simpl.
    assert (Hlt : (Q2Qc (101 # 100) < srScale args)%Qc).
    { unfold sr_requested in Hreq. apply andb_true_iff in Hreq as [_ H].
      apply bool_decide_eq_true_1 in H.
      eapply Qclt_le_trans; [|exact H]. done. }
    case_decide; [|done]. unfold lift. by rewrite Hup.
  - rewrite (has_shape_rows _ _ _ Hshape). lia.
  - rewrite (has_shape_cols _ _ _ Hshape) by lia. lia.
Qed.


(** ** Effects of the pipeline on the pixel buffers *)

Section Effects.

Context (cv : CvBackend).

Lemma bind_run {A B} (m : M A) (k : A -> M B) w a w1 :
  m w = Some (a, w1) -> bind m k w = k a w1.
Proof. unfold bind. by intros ->. Qed.

Lemma heap_stable_bind {A B} (m : M A) (k : A -> M B) :
  heap_stable m -> (forall a, heap_stable (k a)) -> heap_stable (bind m k).
Proof.
  intros Hm Hk w b w' (a & w1 & H1 & H2)%bind_Some.
  rewrite (Hk a _ _ _ H2). by eapply Hm.
Qed.

Lemma heap_stable_ret {A} (a : A) : heap_stable (ret a).
Proof. by intros w b w' [= <- <-]. Qed.

Lemma heap_stable_lift {A} (o : option A) : heap_stable (lift o).
Proof. intros w b w'. unfold lift. destruct o; [|done]. by intros [= <- <-]. Qed.

Lemma heap_stable_cerr_put line : heap_stable (cerr_put line).
Proof. by intros w b w' [= <- <-]. Qed.

Lemma heap_stable_cout_put line : heap_stable (cout_put line).
Proof. by intros w b w' [= <- <-]. Qed.

Lemma heap_stable_hdr_read h : heap_stable (hdr_read h).
Proof.
  intros w b w'. unfold hdr_read. destruct (heap w !! buf h); [|done].
  by intros [= <- <-].
Qed.

Lemma heap_stable_hdr_roi h roi : heap_stable (hdr_roi h roi).
Proof.
  intros w b w'. unfold hdr_roi. case_decide; [|done]. by intros [= <- <-].
Qed.

Lemma heap_stable_do_imwrite path h : heap_stable (do_imwrite cv path h).
Proof.
  intros w b w' (c & w1 & H1 & H2)%bind_Some.
  apply heap_stable_hdr_read in H1. injection H2 as <- <-. done.
Qed.

Lemma heap_stable_superResolution args face :
  heap_stable (superResolution cv args face).
Proof.
  unfold superResolution. destruct (sr_requested args).
  - destruct (sr_try cv args face).
    + apply heap_stable_bind; [apply heap_stable_cerr_put|].
      intros _. apply heap_stable_lift.
    + apply heap_stable_ret.
  - case_decide; [apply heap_stable_lift|apply heap_stable_ret].
Qed.

Lemma fresh_heap_None (hp : gmap nat (Mat (Vec3 Z))) : hp !! fresh (dom hp) = None.
Proof. apply not_elem_of_dom, is_fresh. Qed.

Lemma hdr_roi_Some h roi w h' w' :
  hdr_roi h roi w = Some (h', w') ->
  h' = mkHdr (buf h) (roi_window h roi) /\ w' = w.
Proof.
  unfold hdr_roi. case_decide; [|done]. by intros [= <- <-].
Qed.

(** [pasteWithFeather] touches one buffer only, the one of the canvas, and
    in it only the window of the region of interest; the output streams
    and the record of written files stay as they are. *)
Lemma pasteWithFeather_effect faceBgr roi canvas w w' :
  pasteWithFeather cv faceBgr roi canvas w = Some (tt, w') ->
  preserves (fun b => b <> buf canvas) w w'
  /\ (exists m m',
        heap w !! buf canvas = Some m /\ heap w' !! buf canvas = Some m'
        /\ length m' = length m
        /\ forall i j, ~ inside (roi_window canvas roi) i j -> px m' i j = px m i j)
  /\ cerr w' = cerr w /\ cout w' = cout w /\ imwrite_log w' = imwrite_log w.
Proof.
  unfold pasteWithFeather. intros H.
  apply bind_Some in H as (dstROI & w1 & Hroi & H).
  apply hdr_roi_Some in Hroi as [-> ->].
  apply bind_Some in H as (resizedFace & w2 & Hres & H).
  unfold lift in Hres. destruct (resize_to cv faceBgr (size roi)); [|done].
  injection Hres as <- <-.
  apply bind_Some in H as (dst & w3 & Hread & H).
  unfold hdr_read in Hread. simpl in Hread.
  destruct (heap w !! buf canvas) as [m|] eqn:Hm; [|done].
  injection Hread as <- <-.
  apply bind_Some in H as (hdr' & w4 & Hassign & H).
  injection H as <-.
  unfold hdr_assign in Hassign. simpl in Hassign.
  case_decide as Hsz.
  - rewrite Hm in Hassign. injection Hassign as _ <-. simpl.
    split_and!; try done.
    + intros b mb Hb Hlook. simpl. by rewrite lookup_insert_ne.
    + eexists m, _. rewrite lookup_insert_eq. split_and!; [done|done| |].
      * unfold blit. by rewrite length_imap.
      * intros i j Hout. by apply px_blit_outside.
  - unfold hdr_alloc in Hassign. injection Hassign as _ <-. simpl.
    assert (Hne : fresh (dom (heap w)) <> buf canvas).
    { intros Heq. pose proof (fresh_heap_None (heap w)) as Hf.
      rewrite Heq, Hm in Hf. done. }
    split_and!; try done.
    + intros b mb Hb Hlook. simpl. rewrite lookup_insert_ne; [done|].
      intros Heq. pose proof (fresh_heap_None (heap w)) as Hf.
      rewrite Heq, Hlook in Hf. done.
    + exists m, m. by rewrite lookup_insert_ne.
Qed.

Lemma rect_shift0 (r : Rect) : mkRect (0 + x r) (0 + y r) (width r) (height r) = r.
Proof. by destruct r. Qed.

(** In exact arithmetic the composite writes back what the canvas already
    holds: the mask is zero, so the blend is the destination. *)
Lemma pasteWithFeather_noop h wd (faceBgr m : Mat (Vec3 Z)) roi b w hf wf :
  heap w !! b = Some m ->
  has_shape h wd m -> (0 < h)%nat -> mat_u8 m ->
  rect_inv roi (Z.of_nat wd) (Z.of_nat h) ->
  has_shape hf wf faceBgr -> (0 < hf)%nat -> (0 < wf)%nat ->
  pasteWithFeather cv faceBgr roi (mkHdr b (whole m)) w = Some (tt, w).
Proof.
  intros Hm Hs Hh Hu (Hx & Hy & Hxw & Hyh & Hw & Hht) Hf Hhf Hwf.
  assert (Hwin : window_in roi h wd) by (unfold window_in; lia).
  pose proof (crop_shape h wd m roi Hs Hwin) as Hcrop.
  unfold pasteWithFeather.
  assert (Hroi : hdr_roi (mkHdr b (whole m)) roi w
                 = Some (mkHdr b roi, w)).
  { unfold hdr_roi, whole. simpl.
    rewrite (has_shape_rows _ _ _ Hs), (has_shape_cols _ _ _ Hs Hh).
    case_decide as Hc; [|lia]. unfold ret. by rewrite rect_shift0. }
  rewrite (bind_run _ _ _ _ _ Hroi).
  rewrite (resize_to_Some cv hf wf) by (done || simpl; lia).
  unfold lift at 1. unfold bind at 1.
  assert (Hread : hdr_read (mkHdr b roi) w = Some (crop m roi, w)).
  { unfold hdr_read. simpl. by rewrite Hm. }
  rewrite (bind_run _ _ _ _ _ Hread).
  rewrite featherMask_zero. simpl sh. simpl sw.
  rewrite (feather_blend_zero (Z.to_nat (height roi)) (Z.to_nat (width roi))).
  - unfold bind, hdr_assign. simpl.
    rewrite (has_shape_rows _ _ _ Hcrop), (has_shape_cols _ _ _ Hcrop) by lia.
    case_decide as Hsz; [|lia].
    rewrite Hm, (blit_crop_id h wd) by done.
    rewrite insert_id by done. unfold ret. by rewrite world_eta.
  - apply mat_tab_shape.
  - done.
  - unfold mat_u8, crop. apply Forall_fmap, Forall_forall. intros row Hrow. simpl.
    apply elem_of_take in Hrow as (i & Hrow & _). rewrite lookup_drop in Hrow.
    unfold mat_u8 in Hu. rewrite Forall_lookup in Hu.
    pose proof (Hu _ _ Hrow) as Hrow8.
    by apply Forall_take, Forall_drop.
Qed.

End Effects.

(** ** Runs of [main] *)

Section MainRuns.

Context (cv : CvBackend).

Lemma unsharpMask_shape h w face amount :
  CvContract cv -> has_shape h w face -> has_shape h w (unsharpMask cv face amount).
Proof.
  intros Hcv Hs. unfold unsharpMask. case_decide; [done|].
  unfold addWeighted. apply mat_zip_with_shape; [done|].
  by apply (GaussianBlur_shape cv Hcv).
Qed.

Lemma enhanceLumaCLAHE_shape h w face :
  CvContract cv -> has_shape h w face -> has_shape h w (enhanceLumaCLAHE cv face).
Proof.
  intros Hcv Hs. unfold enhanceLumaCLAHE. cbn zeta.
  apply (YCrCb2BGR_shape cv Hcv), mat_zip_with_shape.
  - apply (clahe_shape cv Hcv), mat_map_shape. by apply (BGR2YCrCb_shape cv Hcv).
  - by apply (BGR2YCrCb_shape cv Hcv).
Qed.

Lemma image_loaded h wd (img : Mat (Vec3 Z)) w :
  has_shape h wd img ->
  hdr_read (mkHdr (fresh (dom (heap w))) (whole img))
    (mkWorld (<[fresh (dom (heap w)) := img]> (heap w)) (cerr w) (cout w) (imwrite_log w))
  = Some (img, mkWorld (<[fresh (dom (heap w)) := img]> (heap w))
                 (cerr w) (cout w) (imwrite_log w)).
Proof.
  intros Hs. unfold hdr_read. simpl. rewrite lookup_insert_eq.
  by rewrite (crop_whole h wd).
Qed.

(** No candidate of non-zero area: the decoded image is handed to
    [imwrite] as it is and the exit code is 0. *)
Lemma main_no_face_run h wd args w cc :
  has_shape h wd (imread cv (inputPath args)) -> (0 < h)%nat -> (0 < wd)%nat ->
  cascade_load cv (cascadePath args) = Some cc ->
  area (pickLargest (detected_faces cv cc (imread cv (inputPath args)))) = 0 ->
  main cv args w
  = Some (0, mkWorld (<[fresh (dom (heap w)) := imread cv (inputPath args)]> (heap w))
               (cerr w ++ ["No face detected. Saving original to output."])
               (cout w)
               (imwrite_log w ++
                  [(outputPath args, imread cv (inputPath args),
                    imwrite cv (outputPath args) (imread cv (inputPath args)))])).
Proof.
  intros Hs Hh Hwd Hcc Harea. unfold main.
  set (img := imread cv (inputPath args)) in *.
  unfold bind at 1. unfold hdr_alloc at 1.
  rewrite (bind_run _ _ _ _ _ (image_loaded h wd img w Hs)).
  rewrite (has_shape_nonempty h wd) by done.
  rewrite Hcc. fold (detected_faces cv cc img). rewrite Harea. simpl.
  unfold bind at 1. unfold cerr_put at 1. unfold bind at 1.
  unfold do_imwrite. unfold bind at 1. unfold hdr_read. simpl.
  rewrite lookup_insert_eq, (crop_whole h wd) by done. done.
Qed.

(** A face was found: in exact arithmetic the run ends with the decoded
    image in the working copy, pixel for pixel. *)
Lemma main_face_run h wd args w cc :
  CvContract cv ->
  has_shape h wd (imread cv (inputPath args)) -> (0 < h)%nat -> (0 < wd)%nat ->
  mat_u8 (imread cv (inputPath args)) ->
  cascade_load cv (cascadePath args) = Some cc ->
  rect_inv (pickLargest (detected_faces cv cc (imread cv (inputPath args))))
    (Z.of_nat wd) (Z.of_nat h) ->
  let img := imread cv (inputPath args) in
  let roi := expandROI (pickLargest (detected_faces cv cc img)) (cols img) (rows img) in
  main cv args w
  = Some (if imwrite cv (outputPath args) img then 0 else 4,
          final_world cv args img img roi w).
Proof.
  intros Hcv Hs Hh Hwd Hu Hcc Hface.
  assert (Harea : (area (pickLargest (detected_faces cv cc (imread cv (inputPath args))))
                   =? 0) = false).
  { apply Z.eqb_neq. destruct Hface as (_ & _ & _ & _ & Hfw & Hfh).
    unfold area. nia. }
  intros img0 roi0. subst img0 roi0.
  remember (imread cv (inputPath args)) as img eqn:Himg.
  unfold main. rewrite <- Himg. clear Himg.
  unfold bind at 1. unfold hdr_alloc at 1.
  rewrite (bind_run _ _ _ _ _ (image_loaded h wd img w Hs)).
  rewrite (has_shape_nonempty h wd) by done.
  rewrite Hcc. fold (detected_faces cv cc img). rewrite Harea.
  remember (expandROI (pickLargest (detected_faces cv cc img)) (cols img) (rows img))
    as roi eqn:Hroi_def.
  assert (Hroi : rect_inv roi (Z.of_nat wd) (Z.of_nat h)).
  { subst roi. rewrite (has_shape_cols _ _ _ Hs Hh), (has_shape_rows _ _ _ Hs).
    by apply expandROI_rect_inv. }
  clear Hroi_def.
  set (b0 := fresh (dom (heap w))).
  set (w1 := mkWorld (<[b0 := img]> (heap w)) (cerr w) (cout w) (imwrite_log w)).
  destruct Hroi as (Hx & Hy & Hxw & Hyh & Hrw & Hrh).
  assert (Hwin : window_in roi h wd) by (unfold window_in; lia).
  (* faceView = img(roi) *)
  assert (Hview : hdr_roi (mkHdr b0 (whole img)) roi w1 = Some (mkHdr b0 roi, w1)).
  { unfold hdr_roi, whole. simpl.
    rewrite (has_shape_rows _ _ _ Hs), (has_shape_cols _ _ _ Hs Hh).
    case_decide as Hc; [|lia]. unfold ret. by rewrite rect_shift0. }
  rewrite (bind_run _ _ _ _ _ Hview).
  assert (Hread : hdr_read (mkHdr b0 roi) w1 = Some (crop img roi, w1)).
  { unfold hdr_read. simpl. by rewrite lookup_insert_eq. }
  rewrite (bind_run _ _ _ _ _ Hread).
  (* super-resolution *)
  pose proof (crop_shape h wd img roi Hs Hwin) as Hcrop.
  destruct (superResolution_run cv _ _ args (crop img roi) w1 Hcv Hcrop
              ltac:(lia) ltac:(lia)) as (up & Hsr & Hup).
  rewrite (bind_run _ _ _ _ _ Hsr).
  pose proof (effective_scale_ge_1 cv args (crop img roi)) as He.
  pose proof (scaled_dim_ge (rows (crop img roi)) _ (rows_nonneg _) He) as Hr1.
  pose proof (scaled_dim_ge (cols (crop img roi)) _ (cols_nonneg _) He) as Hc1.
  rewrite (has_shape_rows _ _ _ Hcrop) in Hr1 at 1.
  rewrite (has_shape_cols _ _ _ Hcrop) in Hc1 at 1 by lia.
  (* tone enhancement and the resize back to the region size *)
  pose proof (denoise_shape cv Hcv _ _ _ (Q2Qc 3) (Q2Qc 3) 7 21
                (enhanceLumaCLAHE_shape _ _ _ Hcv
                   (unsharpMask_shape _ _ _ (sharpenAmount args) Hcv Hup))) as Htone.
  erewrite (resize_to_Some cv _ _ _ (size roi) Htone) by (simpl; lia).
  unfold lift at 1. unfold bind at 1.
  (* result = img.clone() *)
  set (w2 := add_cerr (sr_diagnostics cv args (crop img roi)) w1).
  assert (Hclone : hdr_clone (mkHdr b0 (whole img)) w2
                   = Some (mkHdr (fresh (dom (heap w2))) (whole img),
                           mkWorld (<[fresh (dom (heap w2)) := img]> (heap w2))
                             (cerr w2) (cout w2) (imwrite_log w2))).
  { unfold hdr_clone, bind, hdr_read. simpl. rewrite lookup_insert_eq.
    by rewrite (crop_whole h wd). }
  rewrite (bind_run _ _ _ _ _ Hclone).
  set (bR := fresh (dom (heap w2))).
  set (w3 := mkWorld (<[bR := img]> (heap w2)) (cerr w2) (cout w2) (imwrite_log w2)).
  (* the composite *)
  assert (Hpaste :
    pasteWithFeather cv
      (mat_tab (Z.to_nat (sh (size roi))) (Z.to_nat (sw (size roi)))
         (inter_cubic cv
            (fastNlMeansDenoisingColored cv
               (enhanceLumaCLAHE cv (unsharpMask cv up (sharpenAmount args)))
               (Q2Qc 3) (Q2Qc 3) 7 21) (size roi)))
      roi (mkHdr bR (whole img)) w3 = Some (tt, w3)).
  { apply (pasteWithFeather_noop cv h wd _ img roi bR w3
             (Z.to_nat (height roi)) (Z.to_nat (width roi))).
    - simpl. by rewrite lookup_insert_eq.
    - exact Hs.
    - exact Hh.
    - exact Hu.
    - unfold rect_inv. lia.
    - apply mat_tab_shape.
    - lia.
    - lia. }
  rewrite (bind_run _ _ _ _ _ Hpaste).
  (* imwrite *)
  unfold do_imwrite. unfold bind at 1. unfold bind at 1.
  unfold hdr_read. simpl. rewrite lookup_insert_eq, (crop_whole h wd) by done.
  unfold final_world. fold b0.
  destruct (imwrite cv (outputPath args) img); simpl.
  - unfold bind, cout_put, ret. simpl. by rewrite app_nil_r.
  - unfold bind, cerr_put, ret. simpl. by rewrite app_nil_r, <- app_assoc.
Qed.

End MainRuns.

(** ** The decoded image survives every run *)

Section SourceKept.

Context (cv : CvBackend).

Lemma heap_stable_eq {A} (m : M A) w a w' :
  heap_stable m -> m w = Some (a, w') -> preserves (fun _ => True) w w'.
Proof. intros Hm Hrun b mb _ Hb. by rewrite (Hm _ _ _ Hrun). Qed.

(** From the point where the image has been decoded, no buffer that
    exists is modified by the rest of [main]. *)
Lemma main_tail_preserves args (img : MatHdr) (src : Mat (Vec3 Z)) w code w' :
  (if empty src then
     (cerr_put ("Failed to read input image: " +:+ inputPath args) ;;; ret 2)%cv
   else
     match cascade_load cv (cascadePath args) with
     | None => (cerr_put ("Failed to load cascade: " +:+ cascadePath args) ;;; ret 3)%cv
     | Some faceCascade =>
         let faceRect := pickLargest (detected_faces cv faceCascade src) in
         if area faceRect =? 0 then
           (cerr_put "No face detected. Saving original to output." ;;;
            _ <- do_imwrite cv (outputPath args) img ;;
            ret 0)%cv
         else
           let roi := expandROI faceRect (cols src) (rows src) in
           (faceView <- hdr_roi img roi ;;
            face <- hdr_read faceView ;;
            face <- superResolution cv args face ;;
            let face := unsharpMask cv face (sharpenAmount args) in
            let face := enhanceLumaCLAHE cv face in
            let denoised := fastNlMeansDenoisingColored cv face (Q2Qc 3) (Q2Qc 3) 7 21 in
            let face := denoised in
            faceBack <- lift (resize_to cv face (size roi)) ;;
            result <- hdr_clone img ;;
            pasteWithFeather cv faceBack roi result ;;;
            ok <- do_imwrite cv (outputPath args) result ;;
            if negb ok then
              cerr_put ("Failed to write output: " +:+ outputPath args) ;;; ret 4
            else
              cout_put ("Saved: " +:+ outputPath args) ;;; ret 0)%cv
     end) w = Some (code, w') ->
  preserves (fun _ => True) w w'.
Proof.
  destruct (empty src).
  { apply heap_stable_eq, heap_stable_bind;
      [apply heap_stable_cerr_put|intros; apply heap_stable_ret]. }
  destruct (cascade_load cv (cascadePath args)) as [cc|].
  2: { apply heap_stable_eq, heap_stable_bind;
         [apply heap_stable_cerr_put|intros; apply heap_stable_ret]. }
  cbn zeta. destruct (area _ =? 0).
  { apply heap_stable_eq, heap_stable_bind; [apply heap_stable_cerr_put|].
    intros _. apply heap_stable_bind; [apply heap_stable_do_imwrite|].
    intros; apply heap_stable_ret. }
  set (roi := expandROI _ _ _). intros H.
  apply bind_Some in H as (faceView & w1 & H1 & H).
  apply heap_stable_hdr_roi in H1.
  apply bind_Some in H as (face & w2 & H2 & H).
  apply heap_stable_hdr_read in H2.
  apply bind_Some in H as (face' & w3 & H3 & H).
  apply heap_stable_superResolution in H3.
  apply bind_Some in H as (faceBack & w4 & H4 & H).
  apply heap_stable_lift in H4.
  apply bind_Some in H as (result & w5 & H5 & H).
  apply bind_Some in H5 as (content & w5' & H5a & H5b).
  apply heap_stable_hdr_read in H5a.
  unfold hdr_alloc in H5b. injection H5b as <- <-.
  apply bind_Some in H as ([] & w6 & H6 & H).
  apply pasteWithFeather_effect in H6 as (Hkeep & _). simpl in Hkeep.
  assert (H7 : heap w' = heap w6).
  { revert H. apply (heap_stable_bind (do_imwrite cv (outputPath args) _));
      [apply heap_stable_do_imwrite|].
    intros ok. destruct ok; simpl.
    - apply heap_stable_bind; [apply heap_stable_cout_put|intros; apply heap_stable_ret].
    - apply heap_stable_bind; [apply heap_stable_cerr_put|intros; apply heap_stable_ret]. }
  assert (Hw : heap w5' = heap w) by congruence.
  intros b mb _ Hb. rewrite H7. apply Hkeep.
  - intros ->. pose proof (fresh_heap_None (heap w5')) as Hf.
    rewrite Hw in Hf. rewrite Hw, Hf in Hb. done.
  - simpl. rewrite lookup_insert_ne; [by rewrite Hw|].
    intros Heq. pose proof (fresh_heap_None (heap w5')) as Hf.
    rewrite Heq, Hw, Hb in Hf. done.
Qed.

(** Whatever path [main] takes, the buffer of the decoded image holds the
    decoded image when [main] returns, and so does every buffer that
    existed before. *)
Lemma main_source_kept args w code w' :
  main cv args w = Some (code, w') ->
  heap w' !! fresh (dom (heap w)) = Some (imread cv (inputPath args))
  /\ preserves (fun _ => True) w w'.
Proof.
  unfold main. intros H.
  apply bind_Some in H as (img & w1 & Halloc & H).
  unfold hdr_alloc in Halloc. injection Halloc as <- <-.
  apply bind_Some in H as (src & w2 & Hread & H).
  pose proof (heap_stable_hdr_read _ _ _ _ Hread) as Hw2.
  apply main_tail_preserves in H.
  simpl in Hw2. split.
  - apply (H _ _ I). rewrite Hw2. apply lookup_insert_eq.
  - intros b mb _ Hb. apply (H _ _ I). rewrite Hw2.
    rewrite lookup_insert_ne; [done|].
    intros Heq. pose proof (fresh_heap_None (heap w)) as Hf.
    rewrite Heq, Hb in Hf. done.
Qed.

End SourceKept.

(** ** End-to-end properties *)

(** C1. When the detector reports no candidate rectangle, [main] hands
    the decoded image itself to [imwrite] (the output is the input, pixel
    for pixel), reports that no face was detected and returns 0; the
    decoded image is left as it was. *)
Theorem no_face_passthrough (cv : CvBackend) (args : Args) (w : World)
    (h wd : nat) (cc : Cascade cv) :
  has_shape h wd (imread cv (inputPath args)) -> (0 < h)%nat -> (0 < wd)%nat ->
  cascade_load cv (cascadePath args) = Some cc ->
  detected_faces cv cc (imread cv (inputPath args)) = [] ->
  exists w',
    main cv args w = Some (0, w')
    /\ imwrite_log w'
       = imwrite_log w ++ [(outputPath args, imread cv (inputPath args),
                            imwrite cv (outputPath args) (imread cv (inputPath args)))]
    /\ heap w' !! fresh (dom (heap w)) = Some (imread cv (inputPath args))
    /\ cerr w' = cerr w ++ ["No face detected. Saving original to output."]
    /\ cout w' = cout w.
Proof.
  intros Hs Hh Hwd Hcc Hfaces.
  eexists. split.
  - apply (main_no_face_run cv h wd args w cc Hs Hh Hwd Hcc). by rewrite Hfaces.
  - simpl. by rewrite lookup_insert_eq.
Qed.

Lemma no_face_passthrough_witness :
  let cv := Demo.backend (Demo.gradient 6 6) [] true in
  exists w',
    main cv Demo.args0 Demo.world0 = Some (0, w')
    /\ imwrite_log w' = [("enhanced.png", Demo.gradient 6 6, true)].
Proof.
  intros cv.
  destruct (no_face_passthrough cv Demo.args0 Demo.world0 6 6 tt
              (gradient_shape 6 6) ltac:(lia) ltac:(lia) eq_refl eq_refl)
    as (w' & Hrun & Hlog & _).
  exists w'. split; [exact Hrun|exact Hlog].
Defined.

(** C2. The mask that [featherMask] computes is not a feather: the field
    of ones stays constant under the separable filter (the border is
    extended by reflection), and the min-max normalisation of a constant
    field gives zero everywhere.  Minimum and maximum of the mask are both
    0; the maximum is not 1. *)
Theorem featherMask_degenerate (cv : CvBackend) (size : Size) (radius : Z) :
  featherMask cv size radius = mat_fill (Z.to_nat (sh size)) (Z.to_nat (sw size)) 0%Qc
  /\ minMaxIdx (featherMask cv size radius) = (0%Qc, 0%Qc)
  /\ (minMaxIdx (featherMask cv size radius)).2 <> 1%Qc
  /\ forall r c v, px (featherMask cv size radius) r c = Some v -> v = 0%Qc.
Proof.
  rewrite featherMask_zero.
  assert (Hmm : minMaxIdx (mat_fill (Z.to_nat (sh size)) (Z.to_nat (sw size)) 0%Qc)
                = (0%Qc, 0%Qc)).
  { unfold minMaxIdx.
    assert (Hall : Forall (eq 0%Qc)
                     (concat (mat_fill (Z.to_nat (sh size)) (Z.to_nat (sw size)) 0%Qc))).
    { apply Forall_concat. unfold mat_fill.
      apply Forall_replicate, Forall_replicate_eq. }
    destruct (concat _) as [|v vs]; [done|].
    apply Forall_cons in Hall as [<- Hall].
    by rewrite !foldl_idem by (done || apply Qc_min_idem || apply Qc_max_idem). }
  split_and!; [done|done|by rewrite Hmm|].
  intros r c v Hpx.
  destruct (px_Some_lt _ _ _ _ _ _ (mat_fill_shape _ _ _) Hpx) as [Hr Hc].
  rewrite px_mat_fill in Hpx by done. by injection Hpx as <-.
Qed.

Lemma featherMask_degenerate_witness :
  let cv := Demo.backend (Demo.gradient 4 4) [] true in
  exists v, px (featherMask cv (mkSize 124 160) 6) 80 62 = Some v /\ v = 0%Qc.
Proof.
  intros cv.
  destruct (featherMask_degenerate cv (mkSize 124 160) 6) as (Heq & _ & _ & Hall).
  assert (Hpx : px (featherMask cv (mkSize 124 160) 6) 80 62 = Some 0%Qc).
  { rewrite Heq. apply px_mat_fill; simpl; lia. }
  exists 0%Qc. split; [exact Hpx|exact (Hall _ _ _ Hpx)].
Defined.

(** The mask evaluated for a 5x4 region and a box kernel of radius 1. *)
Example featherMask_5x4 :
  mat_map (fun v : Qc => this v)
    (featherMask (Demo.backend (Demo.gradient 4 4) [] true) (mkSize 5 4) 1)
  = mat_fill 4 5 0%Q.
Proof. vm_compute. reflexivity. Qed.



(** C4. [pasteWithFeather] modifies nothing but the window of the region
    of interest in the buffer of its canvas: every other buffer, and every
    pixel of the canvas buffer outside that window, is left as it was.
    The buffer that holds the decoded image is not the canvas ([main]
    composites into a clone), so at the end of every run that buffer, like
    every buffer that existed before the run, holds what it held. *)
Theorem compositing_frame (cv : CvBackend) :
  (forall faceBgr roi canvas w w',
      pasteWithFeather cv faceBgr roi canvas w = Some (tt, w') ->
      preserves (fun b => b <> buf canvas) w w'
      /\ exists m m',
           heap w !! buf canvas = Some m /\ heap w' !! buf canvas = Some m'
           /\ forall i j, ~ inside (roi_window canvas roi) i j -> px m' i j = px m i j)
  /\ (forall args w code w',
        main cv args w = Some (code, w') ->
        heap w' !! fresh (dom (heap w)) = Some (imread cv (inputPath args))
        /\ preserves (fun _ => True) w w').
Proof.
  split.
  - intros faceBgr roi canvas w w' Hrun.
    destruct (pasteWithFeather_effect cv _ _ _ _ _ Hrun)
      as (Hkeep & (m & m' & Hm & Hm' & _ & Hout) & _).
    split; [done|]. by exists m, m'.
  - intros args w code w' Hrun. by apply (main_source_kept cv args w code w').
Qed.

Lemma compositing_frame_witness :
  let img := Demo.gradient 8 8 in
  let cv := Demo.backend img [mkRect 2 2 4 4] true in
  exists code w',
    main cv Demo.args0 Demo.world0 = Some (code, w')
    /\ heap w' !! fresh (dom (heap Demo.world0)) = Some img.
Proof.
  intros img cv.
  assert (Hrun : main cv Demo.args0 Demo.world0
                 = Some (0, final_world cv Demo.args0 img img
                              (expandROI (mkRect 2 2 4 4) 8 8) Demo.world0)).
  { apply (main_face_run cv 8 8 Demo.args0 Demo.world0 tt (demo_contract _ _ _)
             (gradient_shape 8 8) ltac:(lia) ltac:(lia) (gradient_u8 8 8) eq_refl).
    unfold rect_inv. simpl. lia. }
  eexists _, _. split; [exact Hrun|].
  exact (proj1 (proj2 (compositing_frame cv) Demo.args0 Demo.world0 _ _ Hrun)).
Defined.

(** C5. A model invocation that throws does not end the run.  The
    super-resolution stage catches it, writes the diagnostic
    "Super-resolution failed: ... Using bicubic." to the error stream and
    continues with the bicubic resampling of the region at the requested
    scale, which is what the stage returns when no model is supplied.
    The run itself completes: [main] returns 0 (or 4 if the output file
    cannot be written), with the diagnostic on the error stream, and with
    the same buffers, written image and standard output as the run
    without a model at the same scale. *)
Theorem sr_failure_falls_back (cv : CvBackend) :
  (forall args (face : Mat (Vec3 Z)) h w wld what,
      has_shape h w face -> (0 < h)%nat -> (0 < w)%nat ->
      sr_requested args = true ->
      sr_try cv args face = inl what ->
      exists up,
        resize_by cv face (srScale args) (srScale args) = Some up
        /\ superResolution cv args face wld
           = Some (up, add_cerr
                     ["Super-resolution failed: " +:+ what +:+ ". Using bicubic."] wld)
        /\ superResolution cv (without_model args) face wld = Some (up, wld)
        /\ rows up = cvRound (ofZ (rows face) * srScale args)
        /\ cols up = cvRound (ofZ (cols face) * srScale args))
  /\ (forall args w h wd cc what,
        CvContract cv ->
        has_shape h wd (imread cv (inputPath args)) -> (0 < h)%nat -> (0 < wd)%nat ->
        mat_u8 (imread cv (inputPath args)) ->
        cascade_load cv (cascadePath args) = Some cc ->
        rect_inv (pickLargest (detected_faces cv cc (imread cv (inputPath args))))
          (Z.of_nat wd) (Z.of_nat h) ->
        sr_requested args = true ->
        sr_try cv args
          (crop (imread cv (inputPath args))
             (expandROI (pickLargest (detected_faces cv cc (imread cv (inputPath args))))
                (cols (imread cv (inputPath args))) (rows (imread cv (inputPath args)))))
          = inl what ->
        exists code w' w0',
          main cv args w = Some (code, w')
          /\ main cv (without_model args) w = Some (code, w0')
          /\ (code = 0 \/ code = 4)
          /\ "Super-resolution failed: " +:+ what +:+ ". Using bicubic." ∈ cerr w'
          /\ heap w' = heap w0'
          /\ imwrite_log w' = imwrite_log w0'
          /\ cout w' = cout w0').
Proof.
  split.
  - intros args face h w wld what. apply sr_failure_stage.
  - intros args w h wd cc what Hcv Hs Hh Hwd Hu Hcc Hface Hreq Htry.
    pose proof (main_face_run cv h wd args w cc Hcv Hs Hh Hwd Hu Hcc Hface) as Hrun.
    pose proof (main_face_run cv h wd (without_model args) w cc Hcv Hs Hh Hwd Hu Hcc Hface)
      as Hrun0.
    cbn zeta in Hrun, Hrun0. simpl in Hrun0.
    eexists _, _, _. split; [exact Hrun|]. split; [exact Hrun0|].
    split; [destruct (imwrite cv _ _); auto|].
    split; [|done].
    unfold final_world, sr_diagnostics. simpl. rewrite Hreq, Htry.
    set_solver.
Qed.

Lemma sr_failure_falls_back_witness :
  let img := Demo.gradient 8 8 in
  let cv := Demo.backend img [mkRect 2 2 4 4] false in
  let args := mkArgs "in.png" "enhanced.png" "haar.xml" "broken_model.pb" (Q2Qc 2) (Q2Qc 1) in
  (exists up,
     superResolution cv args (Demo.gradient 3 5) Demo.world0
       = Some (up, add_cerr
                 ["Super-resolution failed: Can't open model file. Using bicubic."]
                 Demo.world0)
     /\ rows up = 6 /\ cols up = 10)
  /\ (exists code w',
        main cv args Demo.world0 = Some (code, w')
        /\ "Super-resolution failed: Can't open model file. Using bicubic." ∈ cerr w').
Proof.
  intros img cv args. split.
  - destruct (proj1 (sr_failure_falls_back cv) args (Demo.gradient 3 5) 3%nat 5%nat
                Demo.world0 "Can't open model file" (gradient_shape 3 5)
                ltac:(lia) ltac:(lia) eq_refl eq_refl)
      as (up & _ & Hrun & _ & Hr & Hc).
    exists up. split; [exact Hrun|]. split; [exact Hr|exact Hc].
  - assert (Hface : rect_inv (pickLargest (detected_faces cv tt (imread cv (inputPath args))))
                      (Z.of_nat 8) (Z.of_nat 8)).
    { unfold rect_inv. simpl. lia. }
    destruct (proj2 (sr_failure_falls_back cv) args Demo.world0 8%nat 8%nat tt
                "Can't open model file" (demo_contract _ _ _) (gradient_shape 8 8)
                ltac:(lia) ltac:(lia) (gradient_u8 8 8) eq_refl Hface eq_refl eq_refl)
      as (code & w' & _ & Hrun & _ & _ & Hdiag & _).
    exists code, w'. split; [exact Hrun|exact Hdiag].
Defined.

(** The pipeline evaluated on an 8x8 image whose last enhancement stage
    inverts every sample: the written image is the input all the same. *)
Example main_demo_run :
  let img := Demo.gradient 8 8 in
  let cv := Demo.backend img [mkRect 2 2 4 4] true in
  (code_log ← main cv Demo.args0 Demo.world0;
   Some (code_log.1, imwrite_log code_log.2, cout code_log.2))
  = Some (0, [("enhanced.png", img, true)], ["Saved: enhanced.png"]).
Proof. vm_compute. reflexivity. Qed.

(** ** The command line *)

Section CommandLineFacts.

Context (stod : string -> option Qc).

Lemma flag_name_is_flag f : is_flag (flag_name f) = true.
Proof. by destruct f. Qed.

Lemma is_flag_false tok :
  is_flag tok = false ->
  String.eqb tok "--input" = false /\ String.eqb tok "--output" = false
  /\ String.eqb tok "--cascade" = false /\ String.eqb tok "--sr_model" = false
  /\ String.eqb tok "--sr_scale" = false /\ String.eqb tok "--sharpen" = false.
Proof.
  unfold is_flag. intros H.
  repeat (apply orb_false_elim in H as [H ?]). by split_and!.
Qed.

Lemma parse_loop_Given f v rest args :
  parse_loop stod (flag_name f :: v :: rest) args
  = match apply_opt stod (Given f v) args with
    | Some a' => parse_loop stod rest a'
    | None => None
    end.
Proof. destruct f; simpl; try done; by destruct (stod v). Qed.

Lemma parse_loop_Other tok rest args :
  is_flag tok = false -> is_help tok = false ->
  parse_loop stod (tok :: rest) args = parse_loop stod rest args.
Proof.
  intros (H1 & H2 & H3 & H4 & H5 & H6)%is_flag_false Hh. unfold is_help in Hh.
  destruct rest as [|v rest']; simpl.
  - by rewrite Hh.
  - by rewrite H1, H2, H3, H4, H5, H6, Hh.
Qed.

(** The loop reads a well-formed sequence of options from left to right
    and then goes on with what follows. *)
Lemma parse_loop_opts (opts : list Opt) (tail : list string) (args : Args) :
  Forall opt_ok opts ->
  parse_loop stod (concat (render <$> opts) ++ tail) args
  = match apply_opts stod opts args with
    | Some a' => parse_loop stod tail a'
    | None => None
    end.
Proof.
  intros Hok. revert args. induction Hok as [|o opts Ho _ IH]; intros args; [done|].
  destruct o as [f v|tok].
  - change (concat (render <$> Given f v :: opts) ++ tail)
      with (flag_name f :: v :: (concat (render <$> opts) ++ tail)).
    rewrite parse_loop_Given.
    change (apply_opts stod (Given f v :: opts) args)
      with (match apply_opt stod (Given f v) args with
            | Some a' => apply_opts stod opts a'
            | None => None
            end).
    destruct (apply_opt stod (Given f v) args) as [a'|]; [apply IH|done].
  - destruct Ho as [Hf Hh].
    change (concat (render <$> Other tok :: opts) ++ tail)
      with (tok :: (concat (render <$> opts) ++ tail)).
    rewrite parse_loop_Other by done. apply IH.
Qed.

Lemma parse_loop_help tok rest args :
  is_help tok = true -> parse_loop stod (tok :: rest) args = Some (args, true).
Proof.
  intros Hh. unfold is_help in Hh.
  assert (Hnf : is_flag tok = false).
  { apply orb_true_iff in Hh as [->%String.eqb_eq | ->%String.eqb_eq]; reflexivity. }
  apply is_flag_false in Hnf as (H1 & H2 & H3 & H4 & H5 & H6).
  destruct rest as [|v rest']; simpl.
  - by rewrite Hh.
  - by rewrite H1, H2, H3, H4, H5, H6, Hh.
Qed.

Lemma parse_loop_single tok args :
  is_help tok = false -> parse_loop stod [tok] args = Some (args, false).
Proof. intros Hh. unfold is_help in Hh. simpl. by rewrite Hh. Qed.

Lemma printUsage_run w :
  printUsage w
  = Some (tt, mkWorld (heap w) (cerr w)
                (cout w ++
                   ["Usage: image_enhancer --input <path> [--output out.png] [--cascade haar.xml]";
                    "       [--sr_model model.pb] [--sr_scale 2|3|4]";
                    "       [--sharpen 0..3]"])
                (imwrite_log w)).
Proof.
  unfold printUsage, bind, cout_put. simpl. by rewrite <- !app_assoc.
Qed.

End CommandLineFacts.

(** X1. A command line made of options ([--key value] pairs and arguments
    the parser does not know) is read from left to right: [parseArgs]
    returns true with the record in which every option has been applied in
    order (so a later occurrence of a key overrides an earlier one, a value
    is taken verbatim even when it looks like a key, unknown arguments are
    skipped), provided the numbers can be read and an input path results.
    Nothing is printed. *)
Theorem parseArgs_options (stod : string -> option Qc) (prog : string)
    (opts : list Opt) (args a' : Args) (w : World) :
  Forall opt_ok opts ->
  (2 <= length (concat (render <$> opts)))%nat ->
  apply_opts stod opts args = Some a' ->
  inputPath a' <> "" ->
  parseArgs stod (prog :: concat (render <$> opts)) args w = Some ((true, a'), w).
Proof.
  intros Hok Hlen Happ Hin. unfold parseArgs.
  case_decide as Hc; [simpl in Hc; lia|].
  change (drop 1 (prog :: concat (render <$> opts))) with (concat (render <$> opts)).
  pose proof (parse_loop_opts stod opts [] args Hok) as Hloop.
  rewrite app_nil_r, Happ in Hloop.
  change (parse_loop stod [] a') with (Some (a', false)) in Hloop. rewrite Hloop.
  apply String.eqb_neq in Hin. by rewrite Hin.
Qed.

Lemma parseArgs_options_witness :
  parseArgs digits_stod
    ["enhancer"; "--input"; "a.png"; "-v"; "--sharpen"; "3"; "--input"; "--help"]
    default_args Demo.world0
  = Some ((true, mkArgs "--help" "enhanced.png" "haarcascade_frontalface_default.xml"
                   "" (Q2Qc 2) (Q2Qc 3)), Demo.world0).
Proof.
  apply (parseArgs_options digits_stod "enhancer"
           [Given FInput "a.png"; Other "-v"; Given FSharpen "3"; Given FInput "--help"]).
  - repeat constructor.
  - simpl. lia.
  - reflexivity.
  - discriminate.
Defined.

(** X2. A last argument that has no value after it is ignored unless it
    asks for help: a key such as [--output] in last position changes
    nothing, and neither does an unknown argument. *)
Theorem parse_loop_trailing_key (stod : string -> option Qc)
    (opts : list Opt) (key : string) (args : Args) :
  Forall opt_ok opts ->
  is_help key = false ->
  parse_loop stod (concat (render <$> opts) ++ [key]) args
  = parse_loop stod (concat (render <$> opts)) args.
Proof.
  intros Hok Hh.
  pose proof (parse_loop_opts stod opts [] args Hok) as H0.
  rewrite app_nil_r in H0. rewrite H0, (parse_loop_opts stod opts [key] args Hok).
  destruct (apply_opts stod opts args) as [a'|]; [|done].
  by rewrite parse_loop_single.
Qed.

Lemma parse_loop_trailing_key_witness :
  parse_loop digits_stod (concat (render <$> [Given FInput "a.png"]) ++ ["--output"])
    default_args
  = Some (set_inputPath "a.png" default_args, false).
Proof.
  rewrite (parse_loop_trailing_key digits_stod [Given FInput "a.png"] "--output").
  - reflexivity.
  - repeat constructor.
  - reflexivity.
Defined.

(** X3. [--help] or [-h] in key position ends the parse: [parseArgs]
    prints the usage text and returns false, with the options before it
    applied, and what follows is not looked at (not even a number that
    cannot be read). *)
Theorem parseArgs_help (stod : string -> option Qc) (prog : string)
    (opts : list Opt) (key : string) (rest : list string) (args a' : Args) (w : World) :
  Forall opt_ok opts ->
  is_help key = true ->
  (2 <= length (concat (render <$> opts) ++ key :: rest))%nat ->
  apply_opts stod opts args = Some a' ->
  parseArgs stod (prog :: concat (render <$> opts) ++ key :: rest) args w
  = Some ((false, a'),
          mkWorld (heap w) (cerr w)
            (cout w ++
               ["Usage: image_enhancer --input <path> [--output out.png] [--cascade haar.xml]";
                "       [--sr_model model.pb] [--sr_scale 2|3|4]";
                "       [--sharpen 0..3]"])
            (imwrite_log w)).
Proof.
  intros Hok Hh Hlen Happ. unfold parseArgs.
  case_decide as Hc; [simpl in Hc; lia|].
  change (drop 1 (prog :: concat (render <$> opts) ++ key :: rest))
    with (concat (render <$> opts) ++ key :: rest).
  rewrite (parse_loop_opts stod opts (key :: rest) args Hok), Happ.
  rewrite parse_loop_help by done.
  unfold bind. by rewrite printUsage_run.
Qed.

Lemma parseArgs_help_witness :
  parseArgs digits_stod
    ["enhancer"; "--input"; "a.png"; "-h"; "--sharpen"; "much"] default_args Demo.world0
  = Some ((false, set_inputPath "a.png" default_args),
          mkWorld ∅ []
            ["Usage: image_enhancer --input <path> [--output out.png] [--cascade haar.xml]";
             "       [--sr_model model.pb] [--sr_scale 2|3|4]";
             "       [--sharpen 0..3]"] []).
Proof.
  apply (parseArgs_help digits_stod "enhancer" [Given FInput "a.png"] "-h"
           ["--sharpen"; "much"]).
  - repeat constructor.
  - reflexivity.
  - simpl. lia.
  - reflexivity.
Defined.

(** X4. A value of [--sr_scale] or [--sharpen] that [std::stod] cannot
    read, met before any [--help], is not handled: the exception leaves
    [parseArgs], whatever comes after it on the command line. *)
Theorem parseArgs_bad_number (stod : string -> option Qc) (prog : string)
    (opts : list Opt) (tail : list string) (args : Args) (w : World) :
  Forall opt_ok opts ->
  (2 <= length (concat (render <$> opts) ++ tail))%nat ->
  apply_opts stod opts args = None ->
  parseArgs stod (prog :: concat (render <$> opts) ++ tail) args w = None.
Proof.
  intros Hok Hlen Happ. unfold parseArgs.
  case_decide as Hc; [simpl in Hc; lia|].
  change (drop 1 (prog :: concat (render <$> opts) ++ tail))
    with (concat (render <$> opts) ++ tail).
  by rewrite (parse_loop_opts stod opts tail args Hok), Happ.
Qed.

Lemma parseArgs_bad_number_witness :
  parseArgs digits_stod
    ["enhancer"; "--input"; "a.png"; "--sr_scale"; "two"; "--help"] default_args Demo.world0
  = None.
Proof.
  apply (parseArgs_bad_number digits_stod "enhancer"
           [Given FInput "a.png"; Given FSrScale "two"] ["--help"]).
  - repeat constructor.
  - simpl. lia.
  - reflexivity.
Defined.

(** X5. Whenever [parseArgs] returns true, at least two arguments follow
    the program name, the input path of the record is not empty, and
    nothing has been printed or changed. *)
Theorem parseArgs_true (stod : string -> option Qc) (argv : list string)
    (args a' : Args) (w w' : World) :
  parseArgs stod argv args w = Some ((true, a'), w') ->
  (3 <= length argv)%nat /\ inputPath a' <> "" /\ w' = w
  /\ parse_loop stod (drop 1 argv) args = Some (a', false).
Proof.
  unfold parseArgs. case_decide as Hc.
  { unfold bind. rewrite printUsage_run. by intros [= ?]. }
  destruct (parse_loop stod (drop 1 argv) args) as [[a'' []]|]; [| |done].
  - unfold bind. rewrite printUsage_run. by intros [= ?].
  - destruct (String.eqb_spec (inputPath a'') "") as [He|Hne].
    + by intros [= ?].
    + intros [= <- <-]. split_and!; [lia|done|done|done].
Qed.

Lemma parseArgs_true_witness :
  (3 <= length ["enhancer"; "--input"; "a.png"])%nat
  /\ inputPath (set_inputPath "a.png" default_args) <> "".
Proof.
  destruct (parseArgs_true digits_stod ["enhancer"; "--input"; "a.png"] default_args
              (set_inputPath "a.png" default_args) Demo.world0 Demo.world0 eq_refl)
    as (H1 & H2 & _).
  split; [exact H1|exact H2].
Defined.

(** ** Exit codes of [main] and of the program *)

Section ExitCodes.

Context (cv : CvBackend).

Lemma io_stable_bind {A B} (m : M A) (k : A -> M B) :
  io_stable m -> (forall a, io_stable (k a)) -> io_stable (bind m k).
Proof.
  intros Hm Hk w b w' (a & w1 & H1 & H2)%bind_Some.
  destruct (Hm _ _ _ H1) as [Hc Hl]. destruct (Hk a _ _ _ H2) as [Hc' Hl'].
  split; congruence.
Qed.

Lemma io_stable_ret {A} (a : A) : io_stable (ret a).
Proof. by intros w b w' [= <- <-]. Qed.

Lemma io_stable_lift {A} (o : option A) : io_stable (lift o).
Proof. intros w b w'. unfold lift. destruct o; [|done]. by intros [= <- <-]. Qed.

Lemma io_stable_cerr_put line : io_stable (cerr_put line).
Proof. by intros w b w' [= <- <-]. Qed.

Lemma io_stable_hdr_alloc c : io_stable (hdr_alloc c).
Proof. by intros w b w' [= <- <-]. Qed.

Lemma io_stable_hdr_read h : io_stable (hdr_read h).
Proof.
  intros w b w'. unfold hdr_read. destruct (heap w !! buf h); [|done].
  by intros [= <- <-].
Qed.

Lemma io_stable_hdr_roi h roi : io_stable (hdr_roi h roi).
Proof. intros w b w'. unfold hdr_roi. case_decide; [|done]. by intros [= <- <-]. Qed.

Lemma io_stable_hdr_clone h : io_stable (hdr_clone h).
Proof.
  apply io_stable_bind; [apply io_stable_hdr_read|intros; apply io_stable_hdr_alloc].
Qed.

Lemma io_stable_superResolution args face : io_stable (superResolution cv args face).
Proof.
  unfold superResolution. destruct (sr_requested args).
  - destruct (sr_try cv args face).
    + apply io_stable_bind; [apply io_stable_cerr_put|intros; apply io_stable_lift].
    + apply io_stable_ret.
  - case_decide; [apply io_stable_lift|apply io_stable_ret].
Qed.

Lemma io_stable_pasteWithFeather face roi canvas :
  io_stable (pasteWithFeather cv face roi canvas).
Proof.
  intros w [] w' H.
  by destruct (pasteWithFeather_effect cv _ _ _ _ _ H) as (_ & _ & _ & -> & ->).
Qed.

Lemma do_imwrite_Some path h w ok w' :
  do_imwrite cv path h w = Some (ok, w') ->
  exists out, ok = imwrite cv path out /\ cout w' = cout w /\ cerr w' = cerr w
    /\ imwrite_log w' = imwrite_log w ++ [(path, out, ok)].
Proof.
  intros (c & w1 & H1 & H2)%bind_Some.
  unfold hdr_read in H1. destruct (heap w !! buf h); [|done].
  injection H1 as <- <-. injection H2 as <- <-. by eexists.
Qed.

Lemma empty_crop_whole (m : Mat (Vec3 Z)) : empty m = true -> empty (crop m (whole m)) = true.
Proof.
  unfold empty. intros [H|H]%orb_true_iff; apply orb_true_iff.
  - left. apply Z.eqb_eq in H. unfold rows in H. by destruct m.
  - right. apply Z.eqb_eq in H. apply Z.eqb_eq.
    unfold crop, whole. cbn [x y width height]. rewrite H.
    generalize (take (Z.to_nat (rows m)) (drop (Z.to_nat 0) m)).
    by intros [|row rest].
Qed.

End ExitCodes.

(** X6. An input that cannot be decoded ([imread] gives an empty matrix)
    ends [main] with exit code 2 and the message on [cerr]; the cascade is
    not consulted, nothing is written, nothing is printed on [cout]. *)
Theorem main_unreadable_input (cv : CvBackend) (args : Args) (w : World) :
  empty (imread cv (inputPath args)) = true ->
  main cv args w
  = Some (2, mkWorld (<[fresh (dom (heap w)) := imread cv (inputPath args)]> (heap w))
               (cerr w ++ ["Failed to read input image: " +:+ inputPath args])
               (cout w) (imwrite_log w)).
Proof.
  intros He. unfold main.
  unfold bind at 1. unfold hdr_alloc at 1.
  unfold bind at 1. unfold hdr_read at 1. simpl. rewrite lookup_insert_eq.
  by rewrite (empty_crop_whole _ He).
Qed.

Lemma main_unreadable_input_witness :
  exists w', main (Demo.backend [] [mkRect 2 2 4 4] true) Demo.args0 Demo.world0 = Some (2, w')
    /\ cerr w' = ["Failed to read input image: in.png"] /\ imwrite_log w' = [].
Proof.
  eexists. split; [|split].
  - apply (main_unreadable_input (Demo.backend [] [mkRect 2 2 4 4] true)
             Demo.args0 Demo.world0). reflexivity.
  - reflexivity.
  - reflexivity.
Defined.

(** The run of [main] when the cascade does not load. *)
Lemma main_cascade_missing_run (cv : CvBackend) (args : Args) (w : World) (h wd : nat) :
  has_shape h wd (imread cv (inputPath args)) -> (0 < h)%nat -> (0 < wd)%nat ->
  cascade_load cv (cascadePath args) = None ->
  main cv args w
  = Some (3, mkWorld (<[fresh (dom (heap w)) := imread cv (inputPath args)]> (heap w))
               (cerr w ++ ["Failed to load cascade: " +:+ cascadePath args])
               (cout w) (imwrite_log w)).
Proof.
  intros Hs Hh Hwd Hcc. unfold main.
  unfold bind at 1. unfold hdr_alloc at 1.
  rewrite (bind_run _ _ _ _ _ (image_loaded h wd _ w Hs)).
  rewrite (has_shape_nonempty h wd) by done.
  by rewrite Hcc.
Qed.


(** X7. A cascade file that cannot be loaded ends [main] with exit code 3
    and the message on [cerr], for every decodable image; the detector is
    not run and nothing is written. *)
Theorem main_cascade_missing (cv : CvBackend) (args : Args) (w : World) (h wd : nat) :
  has_shape h wd (imread cv (inputPath args)) -> (0 < h)%nat -> (0 < wd)%nat ->
  cascade_load cv (cascadePath args) = None ->
  main cv args w
  = Some (3, mkWorld (<[fresh (dom (heap w)) := imread cv (inputPath args)]> (heap w))
               (cerr w ++ ["Failed to load cascade: " +:+ cascadePath args])
               (cout w) (imwrite_log w)).
Proof. apply main_cascade_missing_run. Qed.

Lemma main_cascade_missing_witness :
  exists w', main (backend_no_cascade (Demo.gradient 6 6)) Demo.args0 Demo.world0 = Some (3, w')
    /\ cerr w' = ["Failed to load cascade: haarcascade_frontalface_default.xml"]
    /\ imwrite_log w' = [].
Proof.
  eexists. split; [|split].
  - apply (main_cascade_missing (backend_no_cascade (Demo.gradient 6 6))
             Demo.args0 Demo.world0 6 6 (gradient_shape 6 6)); [lia|lia|reflexivity].
  - reflexivity.
  - reflexivity.
Defined.

(** The possible outcomes of a run of [main]. *)
Lemma main_outcome (cv : CvBackend) (args : Args) (w w' : World) (code : Z) :
  main cv args w = Some (code, w') ->
  (code = 0 \/ code = 2 \/ code = 3 \/ code = 4)
  /\ (code = 2 \/ code = 3 -> cout w' = cout w /\ imwrite_log w' = imwrite_log w)
  /\ (code = 0 \/ code = 4 ->
      exists out ok,
        imwrite_log w' = imwrite_log w ++ [(outputPath args, out, ok)]
        /\ ok = imwrite cv (outputPath args) out
        /\ (code = 4 -> ok = false /\ cout w' = cout w)
        /\ (cout w' <> cout w -> ok = true /\ cout w' = cout w ++ ["Saved: " +:+ outputPath args])).
Proof.
  unfold main. intros H.
  apply bind_Some in H as (img & w1 & Halloc & H).
  destruct (io_stable_hdr_alloc _ _ _ _ Halloc) as [Hc1 Hl1].
  apply bind_Some in H as (src & w2 & Hread & H).
  destruct (io_stable_hdr_read _ _ _ _ Hread) as [Hc2 Hl2].
  rewrite Hc1 in Hc2. rewrite Hl1 in Hl2. clear Halloc Hread Hc1 Hl1.
  destruct (empty src).
  { apply bind_Some in H as ([] & w3 & H3 & H). injection H3 as <-. injection H as <- <-.
    simpl. split; [auto|]. split; [done|]. intros [?|?]; lia. }
  destruct (cascade_load cv (cascadePath args)) as [cc|].
  2: { apply bind_Some in H as ([] & w3 & H3 & H). injection H3 as <-. injection H as <- <-.
       simpl. split; [auto|]. split; [done|]. intros [?|?]; lia. }
  cbn zeta in H. destruct (area _ =? 0).
  { apply bind_Some in H as ([] & w3 & H3 & H). injection H3 as <-.
    apply bind_Some in H as (ok & w4 & H4 & H). injection H as <- <-.
    apply do_imwrite_Some in H4 as (out & Hok & Hco & _ & Hlog). simpl in Hco, Hlog.
    split; [auto|]. split; [intros [?|?]; lia|]. intros _.
    exists out, ok. rewrite Hlog, Hco, Hl2, Hc2. split_and!; [done|done|lia|done]. }
  apply bind_Some in H as (faceView & w3 & H3 & H).
  destruct (io_stable_hdr_roi _ _ _ _ _ H3) as [Hc3 Hl3].
  apply bind_Some in H as (face & w4 & H4 & H).
  destruct (io_stable_hdr_read _ _ _ _ H4) as [Hc4 Hl4].
  apply bind_Some in H as (face' & w5 & H5 & H).
  destruct (io_stable_superResolution cv _ _ _ _ _ H5) as [Hc5 Hl5].
  apply bind_Some in H as (faceBack & w6 & H6 & H).
  destruct (io_stable_lift _ _ _ _ H6) as [Hc6 Hl6].
  apply bind_Some in H as (result & w7 & H7 & H).
  destruct (io_stable_hdr_clone _ _ _ _ H7) as [Hc7 Hl7].
  apply bind_Some in H as ([] & w8 & H8 & H).
  destruct (io_stable_pasteWithFeather cv _ _ _ _ _ _ H8) as [Hc8 Hl8].
  apply bind_Some in H as (ok & w9 & H9 & H).
  apply do_imwrite_Some in H9 as (out & Hok & Hc9 & _ & Hl9).
  assert (Hc : cout w9 = cout w) by congruence.
  assert (Hl : imwrite_log w9 = imwrite_log w ++ [(outputPath args, out, ok)])
    by congruence.
  destruct ok; simpl in H.
  - apply bind_Some in H as ([] & w10 & H10 & H). injection H10 as <-.
    injection H as <- <-. simpl.
    split; [auto|]. split; [intros [?|?]; lia|]. intros _.
    exists out, true. rewrite Hl, Hc. split_and!; [done|done|lia|done].
  - apply bind_Some in H as ([] & w10 & H10 & H). injection H10 as <-.
    injection H as <- <-. simpl.
    split; [auto|]. split; [intros [?|?]; lia|]. intros _.
    exists out, false. rewrite Hl, Hc. split_and!; [done|done|done|done].
Qed.


(** X8. Every run of [main] that returns does so with code 0, 2, 3 or 4.
    With 2 or 3 nothing has been printed on [cout] and [imwrite] has not
    been called.  With 0 or 4 [imwrite] has been called exactly once, on
    the output path; code 4 is returned only when that call failed, and
    the line "Saved: ..." is printed only when it succeeded. *)
Theorem main_exit_codes (cv : CvBackend) (args : Args) (w w' : World) (code : Z) :
  main cv args w = Some (code, w') ->
  (code = 0 \/ code = 2 \/ code = 3 \/ code = 4)
  /\ (code = 2 \/ code = 3 -> cout w' = cout w /\ imwrite_log w' = imwrite_log w)
  /\ (code = 0 \/ code = 4 ->
      exists out ok,
        imwrite_log w' = imwrite_log w ++ [(outputPath args, out, ok)]
        /\ ok = imwrite cv (outputPath args) out
        /\ (code = 4 -> ok = false /\ cout w' = cout w)
        /\ (cout w' <> cout w -> ok = true /\ cout w' = cout w ++ ["Saved: " +:+ outputPath args])).
Proof. apply main_outcome. Qed.

Lemma main_exit_codes_witness :
  let cv := Demo.backend (Demo.gradient 8 8) [mkRect 2 2 4 4] true in
  exists w' out ok,
    main cv Demo.args0 Demo.world0 = Some (0, w')
    /\ imwrite_log w' = [("enhanced.png", out, ok)].
Proof.
  intros cv.
  assert (Hrun : main cv Demo.args0 Demo.world0
                 = Some (0, final_world cv Demo.args0 (Demo.gradient 8 8) (Demo.gradient 8 8)
                              (expandROI (mkRect 2 2 4 4) 8 8) Demo.world0)).
  { apply (main_face_run cv 8 8 Demo.args0 Demo.world0 tt (demo_contract _ _ _)
             (gradient_shape 8 8) ltac:(lia) ltac:(lia) (gradient_u8 8 8) eq_refl).
    unfold rect_inv. simpl. lia. }
  destruct (main_exit_codes cv Demo.args0 Demo.world0 _ 0 Hrun) as (_ & _ & Hw).
  destruct (Hw (or_introl eq_refl)) as (out & ok & Hlog & _).
  eexists _, out, ok. split; [exact Hrun|exact Hlog].
Defined.

(** ** The program as a whole *)

Section Program.

Context (stod : string -> option Qc) (cv : CvBackend).

Lemma parseArgs_effect argv args w r w' :
  parseArgs stod argv args w = Some (r, w') ->
  heap w' = heap w /\ imwrite_log w' = imwrite_log w.
Proof.
  unfold parseArgs. case_decide.
  { unfold bind. rewrite printUsage_run. by intros [= <- <-]. }
  destruct (parse_loop stod (drop 1 argv) args) as [[a' []]|]; [| |done].
  - unfold bind. rewrite printUsage_run. by intros [= <- <-].
  - destruct (String.eqb (inputPath a') ""); by intros [= <- <-].
Qed.

End Program.

(** X9. The program returns one of the codes 0 to 4.  It returns 1
    exactly when [parseArgs] has rejected the command line, and then no
    image has been decoded (no buffer exists that did not exist before)
    and [imwrite] has not been called. *)
Theorem program_exit_codes (stod : string -> option Qc) (cv : CvBackend)
    (argv : list string) (w w' : World) (code : Z) :
  program stod cv argv w = Some (code, w') ->
  (code = 0 \/ code = 1 \/ code = 2 \/ code = 3 \/ code = 4)
  /\ (code = 1 <-> exists a, parseArgs stod argv default_args w = Some ((false, a), w'))
  /\ (code = 1 -> heap w' = heap w /\ imwrite_log w' = imwrite_log w).
Proof.
  unfold program. intros ([ok a] & w1 & Hparse & H)%bind_Some. simpl in H.
  destruct ok.
  - pose proof (main_outcome cv a w1 w' code H) as (Hcode & _).
    split; [lia|]. split; [|lia]. split; [lia|].
    intros (a0 & Ha0). rewrite Ha0 in Hparse. done.
  - injection H as <- <-. split; [auto|].
    split; [split; [by exists a|done]|]. intros _.
    by apply (parseArgs_effect stod _ _ _ _ _ Hparse).
Qed.


Lemma program_exit_codes_witness :
  let cv := Demo.backend (Demo.gradient 6 6) [] true in
  exists w', program digits_stod cv ["enhancer"; "--input"] Demo.world0 = Some (1, w')
    /\ heap w' = ∅ /\ imwrite_log w' = [].
Proof.
  intros cv.
  assert (Hrun : exists w', program digits_stod cv ["enhancer"; "--input"] Demo.world0
                            = Some (1, w')) by (eexists; reflexivity).
  destruct Hrun as [w' Hrun]. exists w'. split; [exact Hrun|].
  destruct (program_exit_codes digits_stod cv _ _ _ _ Hrun) as (_ & _ & Hkeep).
  exact (Hkeep eq_refl).
Defined.

(** X10. On a command line of well-formed options that name an input, the
    program is the pipeline run on the record the options produce,
    starting from the defaults of [struct Args] (output "enhanced.png",
    the frontal-face cascade, no model, scale 2.0, sharpen 1.0). *)
Theorem program_runs_pipeline (stod : string -> option Qc) (cv : CvBackend)
    (prog : string) (opts : list Opt) (a' : Args) (w : World) :
  Forall opt_ok opts ->
  (2 <= length (concat (render <$> opts)))%nat ->
  apply_opts stod opts default_args = Some a' ->
  inputPath a' <> "" ->
  program stod cv (prog :: concat (render <$> opts)) w = main cv a' w.
Proof.
  intros Hok Hlen Happ Hin. unfold program.
  pose proof (parse_loop_opts stod opts [] default_args Hok) as Hloop.
  rewrite app_nil_r, Happ in Hloop.
  change (parse_loop stod [] a') with (Some (a', false)) in Hloop.
  unfold bind, parseArgs.
  case_decide as Hc; [simpl in Hc; lia|].
  change (drop 1 (prog :: concat (render <$> opts))) with (concat (render <$> opts)).
  rewrite Hloop. apply String.eqb_neq in Hin. by rewrite Hin.
Qed.

Lemma program_runs_pipeline_witness :
  let cv := Demo.backend (Demo.gradient 6 6) [] true in
  program digits_stod cv ["enhancer"; "--input"; "face.png"; "--sr_scale"; "3"] Demo.world0
  = main cv (mkArgs "face.png" "enhanced.png" "haarcascade_frontalface_default.xml" ""
               (Q2Qc 3) (Q2Qc 1)) Demo.world0.
Proof.
  intros cv.
  apply (program_runs_pipeline digits_stod cv "enhancer"
           [Given FInput "face.png"; Given FSrScale "3"]).
  - repeat constructor.
  - simpl. lia.
  - reflexivity.
  - discriminate.
Defined.

(** ** More on the region locator and the region expander *)

Section LocatorFacts.

Lemma first_max_unique rects m i j :
  first_max rects m i -> first_max rects m j -> i = j.
Proof.
  intros (Hi & Hmi & Hfi) (Hj & Hmj & Hfj).
  destruct (Nat.lt_trichotomy i j) as [Hlt|[->|Hlt]]; [|done|].
  - specialize (Hfj i Hlt). specialize (Hmi j Hj). lia.
  - specialize (Hfi j Hlt). specialize (Hmj i Hi). lia.
Qed.

Lemma pickLargest_by_index rects i :
  rects <> [] -> first_max rects (length rects) i -> pickLargest rects = rects !!! i.
Proof.
  intros Hne Hi.
  rewrite (first_max_unique _ _ _ _ Hi (pickLargest_index_first_max rects Hne)).
  by destruct rects.
Qed.

Lemma pickLargest_max rects r :
  r ∈ rects -> area r <= area (pickLargest rects).
Proof.
  intros Hr. assert (Hne : rects <> []) by (intros ->; by apply not_elem_of_nil in Hr).
  destruct (pickLargest_index_first_max rects Hne) as (_ & Hmax & _).
  assert (pickLargest rects = rects !!! pickLargest_index rects) as ->
    by (by destruct rects).
  apply list_elem_of_lookup in Hr as [j Hj].
  rewrite <- (list_lookup_total_correct _ _ _ Hj). apply Hmax.
  by eapply lookup_lt_Some.
Qed.

End LocatorFacts.

(** X11. Splitting the candidate list does not change the selection:
    the largest of [l1 ++ l2] is the largest of [l2] when that is strictly
    larger than the largest of [l1], and the largest of [l1] otherwise
    (ties go to the earlier part). *)
Theorem pickLargest_app (l1 l2 : list Rect) :
  l1 <> [] -> l2 <> [] ->
  pickLargest (l1 ++ l2)
  = if area (pickLargest l2) >? area (pickLargest l1) then pickLargest l2
    else pickLargest l1.
Proof.
  intros Hne1 Hne2.
  pose proof (pickLargest_index_first_max l1 Hne1) as (Hlt1 & Hmax1 & Hfirst1).
  pose proof (pickLargest_index_first_max l2 Hne2) as (Hlt2 & Hmax2 & Hfirst2).
  assert (Hp1 : pickLargest l1 = l1 !!! pickLargest_index l1) by (by destruct l1).
  assert (Hp2 : pickLargest l2 = l2 !!! pickLargest_index l2) by (by destruct l2).
  assert (Hne : l1 ++ l2 <> []) by (by destruct l1).
  assert (Hl : forall j, (j < length l1)%nat -> (l1 ++ l2) !!! j = l1 !!! j).
  { intros j Hj. by apply lookup_total_app_l. }
  assert (Hr : forall j, (l1 ++ l2) !!! (length l1 + j)%nat = l2 !!! j).
  { intros j. rewrite lookup_total_app_r by lia. f_equal. lia. }
  destruct (Z.gtb_spec (area (pickLargest l2)) (area (pickLargest l1))) as [Hgt|Hle].
  - rewrite (pickLargest_by_index (l1 ++ l2) (length l1 + pickLargest_index l2) Hne).
    + by rewrite Hr, Hp2.
    + rewrite length_app. split_and!; [lia| |].
      * intros j Hj. rewrite Hr, <- Hp2.
        destruct (decide (j < length l1)%nat) as [Hjl|Hjl].
        -- rewrite Hl by done. specialize (Hmax1 j Hjl). rewrite <- Hp1 in Hmax1. lia.
        -- replace j with (length l1 + (j - length l1))%nat by lia.
           rewrite Hr, Hp2. apply Hmax2. lia.
      * intros j Hj. rewrite Hr, <- Hp2.
        destruct (decide (j < length l1)%nat) as [Hjl|Hjl].
        -- rewrite Hl by done. specialize (Hmax1 j Hjl). rewrite <- Hp1 in Hmax1. lia.
        -- replace j with (length l1 + (j - length l1))%nat by lia.
           rewrite Hr, Hp2. apply Hfirst2. lia.
  - rewrite (pickLargest_by_index (l1 ++ l2) (pickLargest_index l1) Hne).
    + by rewrite Hl, Hp1.
    + rewrite length_app. split_and!; [lia| |].
      * intros j Hj. rewrite (Hl (pickLargest_index l1)), <- Hp1 by done.
        destruct (decide (j < length l1)%nat) as [Hjl|Hjl].
        -- rewrite Hl by done. rewrite Hp1. by apply Hmax1.
        -- replace j with (length l1 + (j - length l1))%nat by lia.
           rewrite Hr. specialize (Hmax2 (j - length l1)%nat ltac:(lia)).
           rewrite <- Hp2 in Hmax2. lia.
      * intros j Hj. rewrite (Hl (pickLargest_index l1)), Hl by lia.
        by apply Hfirst1.
Qed.

Lemma pickLargest_app_witness :
  pickLargest ([mkRect 0 0 40 40; mkRect 5 5 50 50] ++ [mkRect 9 9 50 50; mkRect 1 1 41 41])
  = mkRect 5 5 50 50.
Proof.
  rewrite (pickLargest_app [mkRect 0 0 40 40; mkRect 5 5 50 50]
             [mkRect 9 9 50 50; mkRect 1 1 41 41]); [reflexivity|discriminate|discriminate].
Defined.

(** X12. The order in which the detector lists its candidates can change
    which of several equally large rectangles is selected, but not the
    area of the selection. *)
Theorem pickLargest_area_perm (l1 l2 : list Rect) :
  l1 ≡ₚ l2 -> area (pickLargest l1) = area (pickLargest l2).
Proof.
  intros Hperm. destruct l1 as [|r1 l1].
  - apply Permutation_nil_l in Hperm. by subst.
  - assert (Hne2 : l2 <> []).
    { intros ->. by apply Permutation_nil_r in Hperm. }
    pose proof (pickLargest_elem (r1 :: l1) ltac:(done)) as He1.
    pose proof (pickLargest_elem l2 Hne2) as He2.
    assert (He1' : pickLargest (r1 :: l1) ∈ l2).
    { revert He1. generalize (pickLargest (r1 :: l1)). intros r. by rewrite Hperm. }
    assert (He2' : pickLargest l2 ∈ r1 :: l1).
    { revert He2. generalize (pickLargest l2). intros r. by rewrite Hperm. }
    pose proof (pickLargest_max _ _ He1'). pose proof (pickLargest_max _ _ He2'). lia.
Qed.

Lemma pickLargest_area_perm_witness :
  area (pickLargest [mkRect 0 0 50 40; mkRect 5 5 40 50])
  = area (pickLargest [mkRect 5 5 40 50; mkRect 0 0 50 40])
  /\ pickLargest [mkRect 0 0 50 40; mkRect 5 5 40 50]
     <> pickLargest [mkRect 5 5 40 50; mkRect 0 0 50 40].
Proof.
  split.
  - apply (pickLargest_area_perm [mkRect 0 0 50 40; mkRect 5 5 40 50]
             [mkRect 5 5 40 50; mkRect 0 0 50 40]).
    apply perm_swap.
  - discriminate.
Defined.

(** X13. For candidates of positive width and height, the test
    [faceRect.area() == 0] that [main] applies to the selection succeeds
    exactly when the detector has reported nothing. *)
Theorem no_face_test_iff_empty (rects : list Rect) :
  Forall (fun r => 0 < width r /\ 0 < height r) rects ->
  (area (pickLargest rects) =? 0) = true <-> rects = [].
Proof.
  intros Hpos. split.
  - intros Harea%Z.eqb_eq. destruct rects as [|r rects]; [done|]. exfalso.
    pose proof (pickLargest_elem (r :: rects) ltac:(done)) as He.
    rewrite Forall_forall in Hpos. destruct (Hpos _ He) as [Hw Hh].
    unfold area in Harea. nia.
  - by intros ->.
Qed.

Lemma no_face_test_iff_empty_witness :
  (area (pickLargest [mkRect 10 10 40 40; mkRect 0 0 50 60]) =? 0) = true
  <-> [mkRect 10 10 40 40; mkRect 0 0 50 60] = [].
Proof.
  apply (no_face_test_iff_empty [mkRect 10 10 40 40; mkRect 0 0 50 60]).
  repeat constructor.
Defined.

(** X14. The expanded rectangle is valid for every rectangle of positive
    size whose padded origin lies left of and above the far edges of the
    image: a detection that overhangs the image, or starts at negative
    coordinates, is cut back to the image. *)
Theorem expandROI_clamps_overhang (faceRect : Rect) (cols rows : Z) :
  0 < width faceRect -> 0 < height faceRect ->
  0 < cols -> 0 < rows ->
  x faceRect - padX faceRect < cols -> y faceRect - padY faceRect < rows ->
  rect_inv (expandROI faceRect cols rows) cols rows.
Proof.
  intros Hw Hh Hc Hr Hx Hy.
  pose proof (quot_nonneg (width faceRect) 8 ltac:(lia) ltac:(lia)) as HpX.
  pose proof (quot_nonneg (height faceRect) 6 ltac:(lia) ltac:(lia)) as HpY.
  unfold rect_inv, expandROI, padX, padY in *. simpl in *.
  set (pX := width faceRect ÷ 8) in *. set (pY := height faceRect ÷ 6) in *.
  clearbody pX pY. lia.
Qed.

Lemma expandROI_clamps_overhang_witness :
  expandROI (mkRect (-10) 350 100 120) 400 400 = mkRect 0 330 124 70
  /\ rect_inv (expandROI (mkRect (-10) 350 100 120) 400 400) 400 400.
Proof.
  split; [reflexivity|].
  apply (expandROI_clamps_overhang (mkRect (-10) 350 100 120) 400 400); reflexivity.
Defined.

(** X15. The expansion is bounded: the origin moves left and up by at
    most the pad, the rectangle is at most [2 * pad] larger than the
    detection in each direction, that is at most 5/4 of its width and 4/3
    of its height. *)
Theorem expandROI_bounded (faceRect : Rect) (cols rows : Z) :
  0 <= x faceRect -> 0 <= y faceRect -> 0 < width faceRect -> 0 < height faceRect ->
  let roi := expandROI faceRect cols rows in
  x faceRect - padX faceRect <= x roi <= x faceRect
  /\ y faceRect - padY faceRect <= y roi <= y faceRect
  /\ width roi <= width faceRect + 2 * padX faceRect
  /\ height roi <= height faceRect + 2 * padY faceRect
  /\ 4 * width roi <= 5 * width faceRect
  /\ 3 * height roi <= 4 * height faceRect.
Proof.
  intros Hx Hy Hw Hh roi. subst roi.
  pose proof (quot_nonneg (width faceRect) 8 ltac:(lia) ltac:(lia)) as HpX.
  pose proof (quot_nonneg (height faceRect) 6 ltac:(lia) ltac:(lia)) as HpY.
  assert (HqX : 8 * (width faceRect ÷ 8) <= width faceRect).
  { rewrite Z.quot_div_nonneg by lia. apply Z.mul_div_le. lia. }
  assert (HqY : 6 * (height faceRect ÷ 6) <= height faceRect).
  { rewrite Z.quot_div_nonneg by lia. apply Z.mul_div_le. lia. }
  unfold expandROI, padX, padY in *. simpl in *.
  set (pX := width faceRect ÷ 8) in *. set (pY := height faceRect ÷ 6) in *.
  clearbody pX pY. lia.
Qed.

Lemma expandROI_bounded_witness :
  let roi := expandROI (mkRect 100 100 100 120) 400 400 in
  4 * width roi <= 5 * 100 /\ 3 * height roi <= 4 * 120.
Proof.
  destruct (expandROI_bounded (mkRect 100 100 100 120) 400 400)
    as (_ & _ & _ & _ & H1 & H2); [by vm_compute|by vm_compute|reflexivity|reflexivity|].
  split; [exact H1|exact H2].
Defined.

(** X16. When the detection is closer to the left (or top) edge than the
    pad, the origin stops at 0 but the width is not reduced by the part of
    the pad that was cut off: as far as the image allows, the rectangle
    keeps its full padded width, so the margin on the far side is
    [2 * pad - x], more than the pad. *)
Theorem expandROI_near_edge (faceRect : Rect) (cols rows : Z) :
  0 < width faceRect -> 0 < height faceRect ->
  let roi := expandROI faceRect cols rows in
  (0 <= x faceRect < padX faceRect ->
   width faceRect + 2 * padX faceRect <= cols ->
   x roi = 0
   /\ x roi + width roi
      = x faceRect + width faceRect + (2 * padX faceRect - x faceRect)
   /\ padX faceRect < 2 * padX faceRect - x faceRect)
  /\ (0 <= y faceRect < padY faceRect ->
      height faceRect + 2 * padY faceRect <= rows ->
      y roi = 0
      /\ y roi + height roi
         = y faceRect + height faceRect + (2 * padY faceRect - y faceRect)
      /\ padY faceRect < 2 * padY faceRect - y faceRect).
Proof.
  intros Hw Hh roi. subst roi. unfold expandROI. simpl.
  set (pX := padX faceRect). set (pY := padY faceRect). clearbody pX pY.
  split; intros; lia.
Qed.

Lemma expandROI_near_edge_witness :
  expandROI (mkRect 2 100 80 60) 400 400 = mkRect 0 90 100 80
  /\ 0 + 100 = 2 + 80 + (2 * padX (mkRect 2 100 80 60) - 2).
Proof.
  split; [reflexivity|].
  destruct (expandROI_near_edge (mkRect 2 100 80 60) 400 400) as [Hx _];
    [reflexivity|reflexivity|].
  destruct Hx as (_ & Hr & _); [by vm_compute|by vm_compute|].
  exact Hr.
Defined.

(** ** More on the enhancement stages *)

Section StageFacts.

Context (cv : CvBackend).

Lemma contains_spec pat s : pat <> "" -> contains pat s = true <-> occurs_in pat s.
Proof.
  intros Hne. unfold contains, occurs_in. split.
  - destruct (index 0 pat s) as [m|] eqn:Hidx; [|done]. intros _.
    exists m. by apply (index_correct1 0).
  - intros [m Hm]. destruct (index 0 pat s) as [m'|] eqn:Hidx; [done|].
    exfalso. by apply (index_correct3 0 m pat s Hidx Hne); [lia|].
Qed.

Lemma tolower_idempotent c : tolower (tolower c) = tolower c.
Proof. by destruct c as [[] [] [] [] [] [] [] []]; vm_compute. Qed.

Lemma tolower_string_idempotent s : tolower_string (tolower_string s) = tolower_string s.
Proof. induction s as [|c s IH]; simpl; [done|]. by rewrite tolower_idempotent, IH. Qed.







Lemma merge_split (m : Mat (Vec3 Z)) :
  mat_zip_with (fun (l : Z) (p : Vec3 Z) => (l, p.1.2, p.2))
    (mat_map (fun p : Vec3 Z => p.1.1) m) m = m.
Proof.
  unfold mat_zip_with, mat_map. rewrite zip_with_fmap_l, zip_with_diag.
  rewrite <- (list_fmap_id m) at 2. apply list_fmap_ext. intros _ row _. simpl.
  rewrite zip_with_fmap_l, zip_with_diag.
  rewrite <- (list_fmap_id row) at 2. apply list_fmap_ext.
  by intros _ [[a b] c] _.
Qed.

Lemma std_round_bounds (s : Qc) :
  (0 <= s)%Qc -> (s - half < ofZ (std_round s) /\ ofZ (std_round s) <= s + half)%Qc.
Proof.
  intros Hs. change 0%Qc with (ofZ 0) in Hs. apply Qcle_ofZ_l in Hs.
  assert (Hk : 2 * Z.pos (Qden s) * std_round s <= 2 * Qnum s + Z.pos (Qden s)
               /\ 2 * Qnum s + Z.pos (Qden s) < 2 * Z.pos (Qden s) * (std_round s + 1)).
  { unfold std_round. case_decide; [|lia].
    pose proof (Z.div_mod (2 * Qnum s + Z.pos (Qden s)) (2 * Z.pos (Qden s)) ltac:(lia)).
    pose proof (Z.mod_pos_bound (2 * Qnum s + Z.pos (Qden s)) (2 * Z.pos (Qden s))
                  ltac:(lia)).
    nia. }
  set (k := std_round s) in *. clearbody k.
  destruct s as [[n d] Hc]. simpl in Hk, Hs.
  unfold Qcle, Qclt. rewrite this_ofZ.
  unfold Qcminus, Qcplus, Qcopp, half, Q2Qc. cbn [this].
  rewrite !Qred_correct. unfold Qle, Qlt. simpl. split; nia.
Qed.

End StageFacts.

(** X17. The model family is "lapsrn" exactly when the lower-cased file
    name contains "lapsrn" and does not contain "edsr"; in every other
    case it is "edsr": a name that contains both selects "edsr", and so
    does a name that contains neither. *)
Theorem sr_algo_spec (srModelPath : string) :
  (sr_algo srModelPath = "edsr" \/ sr_algo srModelPath = "lapsrn")
  /\ (sr_algo srModelPath = "lapsrn"
      <-> occurs_in "lapsrn" (tolower_string srModelPath)
          /\ ~ occurs_in "edsr" (tolower_string srModelPath)).
Proof.
  unfold sr_algo. cbn zeta.
  pose proof (contains_spec "edsr" (tolower_string srModelPath) ltac:(done)) as He.
  pose proof (contains_spec "lapsrn" (tolower_string srModelPath) ltac:(done)) as Hl.
  destruct (contains "edsr" _), (contains "lapsrn" _); split; auto; split;
    try done; intuition congruence.
Qed.

(** X18. The choice of the model family does not depend on the case of
    the letters: lower-casing is idempotent, so a file name and its
    lower-cased form select the same family. *)
Theorem sr_algo_tolower (s : string) : sr_algo (tolower_string s) = sr_algo s.
Proof. unfold sr_algo. by rewrite tolower_string_idempotent. Qed.

(** X19. Whenever the model is tried, the integer scale handed to
    [setModel] is at least 2 and is the integer nearest to the requested
    scale, halves rounded up. *)
Theorem sr_model_scale (args : Args) :
  sr_requested args = true ->
  2 <= std_round (srScale args)
  /\ (srScale args - half < ofZ (std_round (srScale args))
      /\ ofZ (std_round (srScale args)) <= srScale args + half)%Qc.
Proof.
  intros Hreq. unfold sr_requested in Hreq.
  apply andb_true_iff in Hreq as [_ Hs]. apply bool_decide_eq_true_1 in Hs.
  assert (H0 : (0 <= srScale args)%Qc) by (eapply Qcle_trans; [|exact Hs]; done).
  split; [|by apply std_round_bounds].
  assert (Hn : 3 * Z.pos (Qden (srScale args)) <= 2 * Qnum (srScale args)).
  { destruct (srScale args) as [[n d] Hc]. unfold Qcle in Hs. cbn [this Q2Qc] in Hs.
    change (Qred (3 # 2)) with (3 # 2)%Q in Hs. unfold Qle in Hs. simpl in *. lia. }
  unfold std_round. case_decide; [|lia].
  apply Z.div_le_lower_bound; lia.
Qed.

Lemma sr_model_scale_witness :
  let args := mkArgs "in.png" "out.png" "haar.xml" "edsr_x3.pb" (Q2Qc (5 # 2)) (Q2Qc 1) in
  std_round (srScale args) = 3 /\ 2 <= std_round (srScale args).
Proof.
  intros args. split; [reflexivity|].
  exact (proj1 (sr_model_scale args eq_refl)).
Defined.

(** X20. A model given together with a scale below 1.5 is ignored: the
    stage behaves as if no model had been named (bicubic above 1.01,
    pass-through otherwise), and no diagnostic is written. *)
Theorem sr_model_ignored_below_threshold (cv : CvBackend) (args : Args)
    (face : Mat (Vec3 Z)) (w : World) :
  (srScale args < Q2Qc (3 # 2))%Qc ->
  superResolution cv args face w = superResolution cv (without_model args) face w
  /\ sr_diagnostics cv args face = [].
Proof.
  intros Hlt.
  assert (Hreq : sr_requested args = false).
  { unfold sr_requested. apply andb_false_iff. right.
    apply bool_decide_eq_false_2. by apply Qclt_not_le. }
  unfold superResolution, sr_diagnostics. rewrite Hreq. done.
Qed.

Lemma sr_model_ignored_below_threshold_witness :
  let cv := Demo.backend (Demo.gradient 4 4) [] false in
  let args := mkArgs "in.png" "out.png" "haar.xml" "broken_model.pb" (Q2Qc (6 # 5)) (Q2Qc 1) in
  superResolution cv args (Demo.gradient 5 5) Demo.world0
  = superResolution cv (without_model args) (Demo.gradient 5 5) Demo.world0.
Proof.
  intros cv args.
  exact (proj1 (sr_model_ignored_below_threshold cv args (Demo.gradient 5 5) Demo.world0
                  eq_refl)).
Defined.

(** X21. On a region that is not empty the super-resolution stage always
    returns, whatever the model does; it leaves the buffers, [cout] and
    the record of written files as they are and writes at most one line
    to [cerr]. *)
Theorem superResolution_total (cv : CvBackend) (args : Args) (face : Mat (Vec3 Z))
    (h w : nat) (wld : World) :
  has_shape h w face -> (0 < h)%nat -> (0 < w)%nat ->
  exists out,
    superResolution cv args face wld
      = Some (out, mkWorld (heap wld) (cerr wld ++ sr_diagnostics cv args face)
                     (cout wld) (imwrite_log wld))
    /\ (length (sr_diagnostics cv args face) <= 1)%nat.
Proof.
  intros Hs Hh Hw. unfold superResolution, sr_diagnostics.
  destruct (sr_requested args) eqn:Hreq.
  - pose proof (sr_requested_scale args Hreq) as Hs1.
    destruct (sr_try cv args face) as [what|up].
    + destruct (resize_by_Some cv h w face (srScale args) Hs Hh Hw Hs1) as (out & Hout & _).
      exists out. unfold bind, cerr_put, lift. rewrite Hout. simpl. split; [done|lia].
    + exists up. unfold ret. rewrite app_nil_r, world_eta. simpl. split; [done|lia].
  - rewrite app_nil_r, world_eta. case_decide as Hlt.
    + assert (Hs1 : (1 <= srScale args)%Qc).
      { apply Qclt_le_weak. eapply Qclt_trans; [|exact Hlt]. done. }
      destruct (resize_by_Some cv h w face (srScale args) Hs Hh Hw Hs1) as (out & Hout & _).
      exists out. unfold lift. rewrite Hout. simpl. split; [done|lia].
    + exists face. simpl. split; [done|lia].
Qed.

Lemma superResolution_total_witness :
  let cv := Demo.backend (Demo.gradient 4 4) [] false in
  let args := mkArgs "in.png" "out.png" "haar.xml" "broken_model.pb" (Q2Qc 2) (Q2Qc 1) in
  exists out, superResolution cv args (Demo.gradient 3 5) Demo.world0
              = Some (out, mkWorld ∅ ["Super-resolution failed: Can't open model file. Using bicubic."] [] []).
Proof.
  intros cv args.
  destruct (superResolution_total cv args (Demo.gradient 3 5) 3 5 Demo.world0
              (gradient_shape 3 5) ltac:(lia) ltac:(lia)) as (out & Hrun & _).
  exists out. exact Hrun.
Defined.





(** X24. Only the luma channel passes through CLAHE: the chroma channels
    are split off and merged back unchanged, so when CLAHE returns the
    luma plane as it was, [enhanceLumaCLAHE] is the colour conversion to
    YCrCb followed by the conversion back. *)
Theorem enhanceLumaCLAHE_luma_only (cv : CvBackend) (src : Mat (Vec3 Z)) :
  clahe_apply cv (Q2Qc 2) (mkSize 8 8)
    (mat_map (fun p : Vec3 Z => p.1.1) (cvtColor_BGR2YCrCb cv src))
  = mat_map (fun p : Vec3 Z => p.1.1) (cvtColor_BGR2YCrCb cv src) ->
  enhanceLumaCLAHE cv src = cvtColor_YCrCb2BGR cv (cvtColor_BGR2YCrCb cv src).
Proof.
  intros Hid. unfold enhanceLumaCLAHE. cbn zeta. by rewrite Hid, merge_split.
Qed.

Lemma enhanceLumaCLAHE_luma_only_witness :
  let cv := Demo.backend (Demo.gradient 4 4) [] true in
  enhanceLumaCLAHE cv (Demo.gradient 4 4) = Demo.gradient 4 4.
Proof.
  intros cv.
  apply (enhanceLumaCLAHE_luma_only cv (Demo.gradient 4 4)). reflexivity.
Defined.

(** ** Preconditions of the composite and totality of the pipeline *)

(** X25. [pasteWithFeather] succeeds only if the region of interest lies
    inside the canvas, has positive width and height, and the face image
    is not empty; in every other case an OpenCV assertion fails before
    the canvas is written. *)
Theorem pasteWithFeather_requires (cv : CvBackend) (faceBgr : Mat (Vec3 Z))
    (roi : Rect) (canvas : MatHdr) (w w' : World) :
  pasteWithFeather cv faceBgr roi canvas w = Some (tt, w') ->
  0 <= x roi /\ 0 <= y roi
  /\ x roi + width roi <= width (win canvas)
  /\ y roi + height roi <= height (win canvas)
  /\ 0 < width roi /\ 0 < height roi
  /\ empty faceBgr = false.
Proof.
  unfold pasteWithFeather. intros H.
  apply bind_Some in H as (dstROI & w1 & Hroi & H).
  unfold hdr_roi in Hroi. case_decide as Hin; [|done].
  apply bind_Some in H as (resizedFace & w2 & Hres & _).
  unfold lift, resize_to in Hres.
  destruct (empty faceBgr); [done|].
  case_decide as Hsz; [done|]. simpl in Hsz. lia.
Qed.

Lemma pasteWithFeather_requires_witness :
  let img := Demo.gradient 8 8 in
  let w := mkWorld {[ 0%nat := img ]} [] [] [] in
  pasteWithFeather (Demo.backend img [] true) (Demo.gradient 2 2) (mkRect 2 2 4 4)
    (mkHdr 0 (whole img)) w = Some (tt, w)
  /\ 2 + 4 <= width (whole img).
Proof.
  intros img w.
  assert (Hrun : pasteWithFeather (Demo.backend img [] true) (Demo.gradient 2 2)
                   (mkRect 2 2 4 4) (mkHdr 0 (whole img)) w = Some (tt, w)).
  { apply (pasteWithFeather_noop _ 8 8 _ img (mkRect 2 2 4 4) 0%nat w 2 2).
    - reflexivity.
    - apply gradient_shape.
    - lia.
    - apply gradient_u8.
    - unfold rect_inv. simpl. lia.
    - apply gradient_shape.
    - lia.
    - lia. }
  split; [exact Hrun|].
  destruct (pasteWithFeather_requires _ _ _ _ _ _ Hrun) as (_ & _ & Hx & _).
  exact Hx.
Defined.


